(** * amazon-cloudwatch-agent-operator: the reconcile task pipeline and the
      collector container builder

    A shallow embedding of
      - [controllers/amazoncloudwatchagent_controller.go]
        ([Task], [RunTasks], [Reconcile]) and
      - [pkg/collector/container.go]
        ([Container], [getConfigContainerPorts], [portMapToList])
    together with the properties the specification states about them.

    Conventions of the embedding.
      - A Go [string] is a sequence of bytes: Rocq's [string].  Go's [<] on
        strings is the bytewise lexicographic order: [String.compare].
      - A Go [map[string]V] is a [gmap string V].  Go iterates a map in an
        unspecified order that may change from one call to the next: the
        functions that [range] over a map take the order the runtime chose
        as an argument ([MapRange]), any rearrangement of the map's entries.
      - A Go slice is a list; a nil slice and an empty slice are both [[]], a
        nil map and an empty map are both [∅] (the code reads them alike).
      - Side effects are explicit: the logger is a list of entries that a
        function returns next to its result, the cluster behind the client is
        a state [World] threaded through the task actions, and the process
        environment read by [proxy.ReadProxyVarsFromEnv] is an argument. *)

From Stdlib Require Import String Ascii List ZArith Lia.
From stdpp Require Import base gmap strings list sorting.

(** ** Go strings: order, formatting *)

Module GoString.

(** [s1 <= s2] on Go strings. *)
Definition le (s1 s2 : string) : Prop := String.leb s1 s2 = true.

(** [s1 < s2] on Go strings. *)
Definition lt (s1 s2 : string) : Prop := String.ltb s1 s2 = true.

#[global] Instance le_dec s1 s2 : Decision (le s1 s2).
Proof. unfold le. apply _. Defined.

#[global] Instance lt_dec s1 s2 : Decision (lt s1 s2).
Proof. unfold lt. apply _. Defined.

(** [len(s)]. *)
Definition len (s : string) : nat := String.length s.

(** [s[:n]] for [n <= len(s)]; the whole of [s] beyond. *)
Definition slice_to (s : string) (n : nat) : string := String.substring 0 n s.

End GoString.

(** [sort.Strings]: the slice in increasing order.  The Go library sorts in
    place with an unstable algorithm; as equal strings cannot be told apart,
    the result is the one increasing rearrangement of the slice
    ([sort_Strings_unique]). *)
Definition sort_Strings (l : list string) : list string :=
  merge_sort GoString.le l.

(** [fmt.Sprintf("--%s=%s", k, v)]. *)
Definition Sprintf_flag (k v : string) : string :=
  "--" +:+ k +:+ "=" +:+ v.

(** The argument made of one entry [k, v] of the flag map. *)
Definition flag_of (kv : string * string) : string := Sprintf_flag kv.1 kv.2.

(** In the slice [l], [a] stands somewhere before [b]. *)
Definition before_in (l : list string) (a b : string) : Prop :=
  ∃ i j, i < j ∧ l !! i = Some a ∧ l !! j = Some b.

(** The arguments of the flags of [m] stand in [args] in the lexicographic
    order of their keys. *)
Definition flags_in_key_order (m : gmap string string) (args : list string)
  : Prop :=
  ∀ k1 v1 k2 v2,
    m !! k1 = Some v1 → m !! k2 = Some v2 → GoString.lt k1 k2 →
    before_in args (Sprintf_flag k1 v1) (Sprintf_flag k2 v2).

(** A [range] over the map [m] visited its entries in the order [l]. *)
Definition ranges {V} (m : gmap string V) (l : list (string * V)) : Prop :=
  l ≡ₚ map_to_list m.

(** The order in which the Go runtime visits the entries of the maps that one
    call ranges over: some rearrangement of each map's entries. *)
Record MapRange : Type := mkMapRange {
  range : ∀ V : Type, gmap string V → list (string * V);
  range_perm : ∀ (V : Type) (m : gmap string V), ranges m (range V m)
}.
Arguments range _ {V} m.

(** Two runtimes: one visits the entries in the order of [map_to_list], the
    other in the opposite order. *)
Definition range_forward : MapRange :=
  {| range := λ V m, map_to_list m;
     range_perm := λ V m, reflexivity (R := Permutation) (map_to_list m) |}.

Definition range_backward : MapRange :=
  {| range := λ V m, reverse (map_to_list m);
     range_perm := λ V m, reverse_Permutation (map_to_list m) |}.

(** ** Go's [error] and the logger *)

(** The values of Go's [error] interface; [nil] is [None] of [option error]. *)
Class GoError : Type := { error : Type }.

(** What [logr.Logger] is handed as keys and values. *)
Inductive LogValue : Type :=
  | VString (s : string)
  | VInt (z : Z)
  | VStrings (l : list string).

(** One call of the logger: [logger.V(level).Info(msg, keysAndValues...)] or
    [logger.Error(err, msg)]; the keys and values start with those the logger
    was given by [WithValues]. *)
Inductive LogEntry `{GoError} : Type :=
  | LogInfo (level : nat) (msg : string) (keysAndValues : list (string * LogValue))
  | LogError (err : error) (msg : string) (keysAndValues : list (string * LogValue)).

(** ** The Kubernetes API types the builder reads and writes

    Only the fields this code touches are listed; the others keep their zero
    value in what the builder creates.  The types the builder copies without
    looking inside are left open ([corev1.Opaque]). *)

Module corev1.

Class Opaque : Type := {
  EnvFromSource : Type;
  ResourceRequirements : Type;
  SecurityContext : Type;
  Lifecycle : Type
}.

(** [corev1.NamespaceTerminatingCause]. *)
Definition NamespaceTerminatingCause : string := "NamespaceTerminating".

Module ContainerPort.
Record t : Type := mk {
  Name : string;
  ContainerPort : Z;     (* int32 *)
  Protocol : string      (* corev1.Protocol *)
}.
End ContainerPort.

(** The type of the spec's explicit ports and of the entries of the default
    port table. *)
Module ServicePort.
Record t : Type := mk {
  Name : string;
  Protocol : string;
  Port : Z               (* int32 *)
}.
End ServicePort.

(** [corev1.EnvVarSource], with [corev1.ObjectFieldSelector] for [FieldRef]. *)
Inductive EnvVarSource : Type :=
  | FieldRef (FieldPath : string)
  | ResourceFieldRef (Resource : string)
  | ConfigMapKeyRef (Name Key : string)
  | SecretKeyRef (Name Key : string).

Module EnvVar.
Record t : Type := mk {
  Name : string;
  Value : string;
  ValueFrom : option EnvVarSource
}.
End EnvVar.

Module VolumeMount.
Record t : Type := mk {
  Name : string;
  MountPath : string
}.
End VolumeMount.

Module Container.
Record t `{Opaque} : Type := mk {
  Name : string;
  Image : string;
  ImagePullPolicy : string;
  Ports : list ContainerPort.t;
  VolumeMounts : list VolumeMount.t;
  Args : list string;
  Env : list EnvVar.t;
  EnvFrom : list EnvFromSource;
  Resources : ResourceRequirements;
  SecurityContext : option SecurityContext;
  Lifecycle : option Lifecycle
}.
End Container.

End corev1.

Module v1alpha1.

(** An auxiliary configuration bundle. *)
Module ConfigMapsSpec.
Record t : Type := mk {
  Name : string;
  MountPath : string
}.
End ConfigMapsSpec.

Record AmazonCloudWatchAgentSpec `{corev1.Opaque} : Type := mkSpec {
  Image : string;
  ImagePullPolicy : string;
  Config : string;
  Args : gmap string string;
  Ports : list corev1.ServicePort.t;
  VolumeMounts : list corev1.VolumeMount.t;
  Env : list corev1.EnvVar.t;
  EnvFrom : list corev1.EnvFromSource;
  ConfigMaps : list ConfigMapsSpec.t;
  Resources : corev1.ResourceRequirements;
  SecurityContext : option corev1.SecurityContext;
  Lifecycle : option corev1.Lifecycle
}.

Record AmazonCloudWatchAgent `{corev1.Opaque} : Type := mk {
  Namespace : string;
  Name : string;
  Spec : AmazonCloudWatchAgentSpec
}.

(** The custom resource [otelcol] once its flag map has become [args]. *)
Definition with_Args `{corev1.Opaque} (otelcol : AmazonCloudWatchAgent)
    (args : gmap string string) : AmazonCloudWatchAgent :=
  {| Namespace := Namespace otelcol;
     Name := Name otelcol;
     Spec := {|
       Image := Image (Spec otelcol);
       ImagePullPolicy := ImagePullPolicy (Spec otelcol);
       Config := Config (Spec otelcol);
       Args := args;
       Ports := Ports (Spec otelcol);
       VolumeMounts := VolumeMounts (Spec otelcol);
       Env := Env (Spec otelcol);
       EnvFrom := EnvFrom (Spec otelcol);
       ConfigMaps := ConfigMaps (Spec otelcol);
       Resources := Resources (Spec otelcol);
       SecurityContext := SecurityContext (Spec otelcol);
       Lifecycle := Lifecycle (Spec otelcol)
     |} |}.

End v1alpha1.

(** ** The packages the two files import

    Code outside the two files is taken as given: each package is an
    interface, and everything below holds for every implementation of it. *)

(** [internal/config]: the configuration defaults, through the two getters the
    builder calls. *)
Module config.
Record Config : Type := mk {
  CollectorImage : string;
  CollectorConfigMapEntry : string
}.
End config.

(** [k8s.io/apimachinery/pkg/util/validation]: each function returns the list
    of the rules its argument breaks. *)
Module validation.
Class Pkg : Type := {
  IsValidPortName : string → list string;
  IsValidPortNum : Z → list string
}.
End validation.

(** [pkg/constants]: the static table of default ports. *)
Module constants.
Class Pkg : Type := {
  CloudwatchAgentPorts : list corev1.ServicePort.t
}.
End constants.

(** [path]. *)
Module path.
Class Pkg : Type := {
  Join : list string → string
}.
End path.

(** [github.com/operator-framework/operator-lib/proxy]: the process environment
    [Environ] is what [ReadProxyVarsFromEnv] reads. *)
Module proxy.
Class Pkg : Type := {
  Environ : Type;
  ReadProxyVarsFromEnv : Environ → list corev1.EnvVar.t
}.
End proxy.

(** [internal/naming]. *)
Module naming.
Class Pkg : Type := {
  ConfigMapVolume : string;
  Container : string;
  ConfigMapExtra : string → string
}.

(** Modelled from the spec: [naming.Truncate] is not among the source files.
    The specification says of the call [naming.Truncate(p.Name, maxPortLen)]:
    truncate the name to a maximum of 15 characters; if the name changes, note
    it.  So: the name itself when it has at most [max] bytes, its first [max]
    bytes otherwise. *)
Definition Truncate (format : string) (max : nat) : string :=
  if decide (max < GoString.len format) then GoString.slice_to format max
  else format.
End naming.

(** ** Computations that log *)

(** A result together with the entries handed to the logger, oldest first. *)
Definition Logged `{GoError} (A : Type) : Type := A * list LogEntry.

#[global] Instance Logged_ret `{GoError} : MRet Logged := λ A a, (a, []).

#[global] Instance Logged_bind `{GoError} : MBind Logged :=
  λ A B f m, ((f m.1).1, m.2 ++ (f m.1).2).

Definition logInfo `{GoError} (msg : string)
    (keysAndValues : list (string * LogValue)) : Logged () :=
  ((), [LogInfo 0 msg keysAndValues]).

Definition logError `{GoError} (err : error) (msg : string) : Logged () :=
  ((), [LogError err msg []]).

(** ** [pkg/collector/container.go] *)

Module collector.

(** [maxPortLen] allows us to truncate a port name according to what is
    considered valid port syntax. *)
Definition maxPortLen : nat := 15.

(** What a call of [Container] leaves behind: the container it returns, and the
    map [otelcol.Spec.Args], which the callee shares with its caller and from
    which it deletes a key. *)
Record Built `{corev1.Opaque} : Type := mkBuilt {
  container : corev1.Container.t;
  Spec_Args : gmap string string
}.

(** [!(q.Name < p.Name)] and [p.Name < q.Name] on ports. *)
Definition name_le (p q : corev1.ContainerPort.t) : Prop :=
  GoString.le (corev1.ContainerPort.Name p) (corev1.ContainerPort.Name q).

Definition name_lt (p q : corev1.ContainerPort.t) : Prop :=
  GoString.lt (corev1.ContainerPort.Name p) (corev1.ContainerPort.Name q).

#[global] Instance name_le_dec p q : Decision (name_le p q).
Proof. unfold name_le. apply _. Defined.

(** Every port of the map is stored under its own name. *)
Definition keyed_by_name (ports : gmap string corev1.ContainerPort.t) : Prop :=
  map_Forall (λ k p, corev1.ContainerPort.Name p = k) ports.

Section Collector.
Context `{GoError} `{!corev1.Opaque} `{!validation.Pkg} `{!constants.Pkg}
  `{!path.Pkg} `{!proxy.Pkg} `{!naming.Pkg}.

(** The name under which the loop of [getConfigContainerPorts] handles the
    default port [p], and whether it drops the port. *)
Definition truncName_of (p : corev1.ServicePort.t) : string :=
  naming.Truncate (corev1.ServicePort.Name p) maxPortLen.

Definition dropped (p : corev1.ServicePort.t) : Prop :=
  0 < length (validation.IsValidPortName (truncName_of p)) ∨
  0 < length (validation.IsValidPortNum (corev1.ServicePort.Port p)).

(** The two diagnostic notes of the loop. *)
Definition truncating_note (p : corev1.ServicePort.t) : LogEntry :=
  LogInfo 0 "truncating container port name"
    [("port.name.prev", VString (corev1.ServicePort.Name p));
     ("port.name.new", VString (truncName_of p))].

Definition dropping_note (p : corev1.ServicePort.t) : LogEntry :=
  LogInfo 0 "dropping invalid container port"
    [("port.name", VString (truncName_of p));
     ("port.num", VInt (corev1.ServicePort.Port p));
     ("port.name.errs", VStrings (validation.IsValidPortName (truncName_of p)));
     ("num.errs", VStrings (validation.IsValidPortNum (corev1.ServicePort.Port p)))].

(** The body of the loop of [getConfigContainerPorts], over what is left of the
    table. *)
Fixpoint getConfigContainerPorts_loop (table : list corev1.ServicePort.t)
    (ports : gmap string corev1.ContainerPort.t)
  : Logged (gmap string corev1.ContainerPort.t) :=
  match table with
  | [] => mret ports
  | p :: table =>
    let truncName := naming.Truncate (corev1.ServicePort.Name p) maxPortLen in
    _ ← (if decide (corev1.ServicePort.Name p ≠ truncName) then
           logInfo "truncating container port name"
             [("port.name.prev", VString (corev1.ServicePort.Name p));
              ("port.name.new", VString truncName)]
         else mret ());
    let nameErrs := validation.IsValidPortName truncName in
    let numErrs := validation.IsValidPortNum (corev1.ServicePort.Port p) in
    if decide (0 < length nameErrs ∨ 0 < length numErrs) then
      _ ← logInfo "dropping invalid container port"
            [("port.name", VString truncName);
             ("port.num", VInt (corev1.ServicePort.Port p));
             ("port.name.errs", VStrings nameErrs);
             ("num.errs", VStrings numErrs)];
      getConfigContainerPorts_loop table ports
    else
      getConfigContainerPorts_loop table
        (<[truncName :=
             corev1.ContainerPort.mk truncName (corev1.ServicePort.Port p)
               (corev1.ServicePort.Protocol p)]> ports)
  end.

Definition getConfigContainerPorts (cfg : string)
  : Logged (gmap string corev1.ContainerPort.t * option error) :=
  ports ← getConfigContainerPorts_loop constants.CloudwatchAgentPorts ∅;
  mret (ports, None).

(** [sort.Slice(ports, func(i, j) { return ports[i].Name < ports[j].Name })]:
    afterwards no port stands before one of a smaller name.  Ports of equal
    names may come out in any order; the ports of a map keyed by their names
    come out in one order only ([portMapToList_unique]). *)
Definition sort_Slice_Name (ports : list corev1.ContainerPort.t)
  : list corev1.ContainerPort.t :=
  merge_sort name_le ports.

Definition portMapToList (rt : MapRange)
    (portMap : gmap string corev1.ContainerPort.t) : list corev1.ContainerPort.t :=
  let ports := (range rt portMap).*2 in
  sort_Slice_Name ports.

(** [ports[p.Name] = corev1.ContainerPort{...}] for each explicit port. *)
Definition overlay_ports (ports : gmap string corev1.ContainerPort.t)
    (explicit : list corev1.ServicePort.t) : gmap string corev1.ContainerPort.t :=
  foldl (λ ports p,
           <[corev1.ServicePort.Name p :=
               corev1.ContainerPort.mk (corev1.ServicePort.Name p)
                 (corev1.ServicePort.Port p) (corev1.ServicePort.Protocol p)]> ports)
        ports explicit.

(** [Container] builds a container for the given collector.  [rt] is the order
    in which the runtime ranges over maps during the call, [environ] the
    process environment at the time of the call. *)
Definition Container (rt : MapRange) (environ : proxy.Environ)
    (cfg : config.Config) (otelcol : v1alpha1.AmazonCloudWatchAgent)
    (addConfig : bool) : Logged Built :=
  let spec := v1alpha1.Spec otelcol in
  let image :=
    if decide (GoString.len (v1alpha1.Image spec) = 0)
    then config.CollectorImage cfg else v1alpha1.Image spec in
  (* build container ports from service ports *)
  '(ports, err) ← getConfigContainerPorts (v1alpha1.Config spec);
  _ ← (match err with
       | Some e => logError e "container ports config"
       | None => mret ()
       end);
  let ports := overlay_ports ports (v1alpha1.Ports spec) in
  let volumeMounts : list corev1.VolumeMount.t := [] in
  let argsMap := v1alpha1.Args spec in
  let args : list string := [] in
  '(argsMap, args, volumeMounts) ←
    (if addConfig then
       (* if key exists then delete key and excluded from the iteration *)
       argsMap ← (if decide (is_Some (argsMap !! "config")) then
                    _ ← logInfo "the 'config' flag isn't allowed and is being ignored" [];
                    mret (delete "config" argsMap)
                  else mret argsMap);
       mret (argsMap,
             args ++ ["--config=/conf/" +:+ config.CollectorConfigMapEntry cfg],
             volumeMounts ++
               [corev1.VolumeMount.mk naming.ConfigMapVolume "/etc/cwagentconfig"])
     else mret (argsMap, args, volumeMounts));
  let sortedArgs :=
    sort_Strings (flag_of <$> range rt argsMap) in
  let args := args ++ sortedArgs in
  let volumeMounts :=
    if decide (0 < length (v1alpha1.VolumeMounts spec))
    then volumeMounts ++ v1alpha1.VolumeMounts spec else volumeMounts in
  let envVars := v1alpha1.Env spec in
  let envVars :=
    envVars ++ [corev1.EnvVar.mk "POD_NAME" "" (Some (corev1.FieldRef "metadata.name"))] in
  let volumeMounts :=
    if decide (0 < length (v1alpha1.ConfigMaps spec)) then
      volumeMounts ++
        ((λ c, corev1.VolumeMount.mk
                 (naming.ConfigMapExtra (v1alpha1.ConfigMapsSpec.Name c))
                 (path.Join ["/var/conf"; v1alpha1.ConfigMapsSpec.MountPath c;
                             naming.ConfigMapExtra (v1alpha1.ConfigMapsSpec.Name c)]))
           <$> v1alpha1.ConfigMaps spec)
    else volumeMounts in
  let envVars := envVars ++ proxy.ReadProxyVarsFromEnv environ in
  mret {|
    container := {|
      corev1.Container.Name := naming.Container;
      corev1.Container.Image := image;
      corev1.Container.ImagePullPolicy := v1alpha1.ImagePullPolicy spec;
      corev1.Container.Ports := portMapToList rt ports;
      corev1.Container.VolumeMounts := volumeMounts;
      corev1.Container.Args := args;
      corev1.Container.Env := envVars;
      corev1.Container.EnvFrom := v1alpha1.EnvFrom spec;
      corev1.Container.Resources := v1alpha1.Resources spec;
      corev1.Container.SecurityContext := v1alpha1.SecurityContext spec;
      corev1.Container.Lifecycle := v1alpha1.Lifecycle spec
    |};
    Spec_Args := argsMap
  |}.

End Collector.

#[global] Instance dropped_dec `{!validation.Pkg} p : Decision (dropped p).
Proof. unfold dropped. apply _. Defined.

(** The default port [p] passes validation and is stored under [k]. *)
Definition kept_as `{!validation.Pkg} (k : string) (p : corev1.ServicePort.t)
  : Prop := ¬ dropped p ∧ truncName_of p = k.

#[global] Instance kept_as_dec `{!validation.Pkg} k p : Decision (kept_as k p).
Proof. unfold kept_as. apply _. Defined.

(** The port of name [k] made of the last entry of [ports] that [P] picks. *)
Definition port_of_last (P : corev1.ServicePort.t → Prop)
    `{∀ p, Decision (P p)} (k : string) (ports : list corev1.ServicePort.t)
  : option corev1.ContainerPort.t :=
  (λ p, corev1.ContainerPort.mk k (corev1.ServicePort.Port p)
          (corev1.ServicePort.Protocol p)) <$> last (filter P ports).

(** The port the defaults give the name [k], and the port the explicit ports
    of the spec give it. *)
Definition default_port `{!validation.Pkg} `{!constants.Pkg} (k : string)
  : option corev1.ContainerPort.t :=
  port_of_last (kept_as k) k constants.CloudwatchAgentPorts.

Definition explicit_port (explicit : list corev1.ServicePort.t) (k : string)
  : option corev1.ContainerPort.t :=
  port_of_last (λ p, corev1.ServicePort.Name p = k) k explicit.

(** The mount of the primary configuration, and the mount of an auxiliary
    configuration bundle. *)
Definition config_mount `{!naming.Pkg} : corev1.VolumeMount.t :=
  corev1.VolumeMount.mk naming.ConfigMapVolume "/etc/cwagentconfig".

Definition extra_mount `{!naming.Pkg} `{!path.Pkg} (c : v1alpha1.ConfigMapsSpec.t)
  : corev1.VolumeMount.t :=
  corev1.VolumeMount.mk
    (naming.ConfigMapExtra (v1alpha1.ConfigMapsSpec.Name c))
    (path.Join ["/var/conf"; v1alpha1.ConfigMapsSpec.MountPath c;
                naming.ConfigMapExtra (v1alpha1.ConfigMapsSpec.Name c)]).

(** The variable that exposes the pod's own name. *)
Definition POD_NAME : corev1.EnvVar.t :=
  corev1.EnvVar.mk "POD_NAME" "" (Some (corev1.FieldRef "metadata.name")).

(** The note on a discarded ["config"] flag. *)
Definition config_note `{GoError} : LogEntry :=
  LogInfo 0 "the 'config' flag isn't allowed and is being ignored" [].

End collector.

(** ** The packages of the controller *)

(** [k8s.io/apimachinery/pkg/api/errors]. *)
Module apierrors.
Class Pkg `{GoError} : Type := {
  IsNotFound : error → bool;
  IsForbidden : error → bool;
  HasStatusCause : error → string → bool
}.
End apierrors.

(** [types.NamespacedName], the identity in a [ctrl.Request]. *)
Record NamespacedName : Type := mkNamespacedName {
  req_Namespace : string;
  req_Name : string
}.

(** [sigs.k8s.io/controller-runtime]: the cluster behind the client is a state
    [World]; [Get] reads the custom resource of the given identity, or fails. *)
Module ctrl.
Class Pkg `{GoError} `{corev1.Opaque} : Type := {
  World : Type;
  Context : Type;
  Scheme : Type;
  EventRecorder : Type;
  Get : Context → NamespacedName → World →
        World * (error + v1alpha1.AmazonCloudWatchAgent)
}.

Record Result : Type := mkResult {
  Requeue : bool;
  RequeueAfter : Z
}.
End ctrl.

(** [client.IgnoreNotFound]: nil on NotFound errors, every other value as it
    is. *)
Module client.
Definition IgnoreNotFound `{apierrors.Pkg} (err : option error) : option error :=
  match err with
  | Some e => if apierrors.IsNotFound e then None else Some e
  | None => None
  end.
End client.

(** A [logr.Logger]: the keys and values it was given. *)
Definition Logger : Type := list (string * LogValue).

(** [pkg/collector/reconcile]: the parameter bundle of a task (the client is
    the [World] the task runs in). *)
Module reconcile.
Record Params `{ctrl.Pkg} : Type := mk {
  Config : config.Config;
  Instance : v1alpha1.AmazonCloudWatchAgent;
  Log : Logger;
  Scheme : ctrl.Scheme;
  Recorder : ctrl.EventRecorder
}.

(** The six reconcile helpers, one per kind of object: each converges the
    objects of its kind in the cluster, or fails. *)
Class Pkg `{ctrl.Pkg} : Type := {
  ConfigMaps : ctrl.Context → Params → ctrl.World → ctrl.World * option error;
  ServiceAccounts : ctrl.Context → Params → ctrl.World → ctrl.World * option error;
  Services : ctrl.Context → Params → ctrl.World → ctrl.World * option error;
  Deployments : ctrl.Context → Params → ctrl.World → ctrl.World * option error;
  DaemonSets : ctrl.Context → Params → ctrl.World → ctrl.World * option error;
  Self : ctrl.Context → Params → ctrl.World → ctrl.World * option error
}.
End reconcile.

(** ** [controllers/amazoncloudwatchagent_controller.go] *)

Module controllers.

(** [Task] represents a reconciliation task to be executed by the
    reconciler. *)
Record Task `{ctrl.Pkg} : Type := mkTask {
  Do : ctrl.Context → reconcile.Params → ctrl.World → ctrl.World * option error;
  Name : string;
  BailOnError : bool
}.

(** [AmazonCloudWatchAgentReconciler] reconciles a AmazonCloudWatchAgent
    object.  (The lock [muTasks] guards [tasks] against [SetTasks]-like
    replacement; one call reads the list as it stands.) *)
Record AmazonCloudWatchAgentReconciler `{ctrl.Pkg} : Type := mkReconciler {
  recorder : ctrl.EventRecorder;
  scheme : ctrl.Scheme;
  log : Logger;
  config : config.Config;
  tasks : list Task
}.

(** What a run does that its caller can observe: a task's action ran and
    returned, or the logger was called. *)
Inductive Event `{ctrl.Pkg} : Type :=
  | Ran (task : Task) (outcome : option error)
  | Logs (entry : LogEntry).

(** A step of the reconciler: from the cluster it finds to a result, the
    cluster it leaves and the events on the way, oldest first. *)
Definition M `{ctrl.Pkg} (A : Type) : Type :=
  ctrl.World → A * ctrl.World * list Event.

#[global] Instance M_ret `{ctrl.Pkg} : MRet M := λ A a w, (a, w, []).

#[global] Instance M_bind `{ctrl.Pkg} : MBind M :=
  λ A B f m w,
    let '(a, w1, ev1) := m w in
    let '(b, w2, ev2) := f a w1 in
    (b, w2, ev1 ++ ev2).

Section Controller.
Context `{GoError} `{!corev1.Opaque} `{!ctrl.Pkg} `{!apierrors.Pkg}.

(** [task.Do(ctx, params)]. *)
Definition do (task : Task) (ctx : ctrl.Context) (params : reconcile.Params)
  : M (option error) :=
  λ w, let '(w', err) := Do task ctx params w in (err, w', [Ran task err]).

(** [r.Get(ctx, req.NamespacedName, &instance)]. *)
Definition get (ctx : ctrl.Context) (req : NamespacedName)
  : M (error + v1alpha1.AmazonCloudWatchAgent) :=
  λ w, let '(w', got) := ctrl.Get ctx req w in (got, w', []).

Definition Info (logger : Logger) (level : nat) (msg : string)
    (keysAndValues : list (string * LogValue)) : M () :=
  λ w, ((), w, [Logs (LogInfo level msg (logger ++ keysAndValues))]).

Definition Error (logger : Logger) (err : error) (msg : string) : M () :=
  λ w, ((), w, [Logs (LogError err msg logger)]).

(** What a step returned, the cluster it left, the events on its way. *)
Definition returned {A} (x : A * ctrl.World * list Event) : A := x.1.1.
Definition world_after {A} (x : A * ctrl.World * list Event) : ctrl.World := x.1.2.
Definition events {A} (x : A * ctrl.World * list Event) : list Event := x.2.

(** The events of a run that are task actions, in order. *)
Definition ran (events : list Event) : list (Task * option error) :=
  omap (λ ev, match ev with Ran task o => Some (task, o) | Logs _ => None end)
       events.

(** The tasks a step executed, each with what its action returned. *)
Definition executed {A} (x : A * ctrl.World * list Event)
  : list (Task * option error) := ran (events x).

(** The error is the one [RunTasks] absorbs: the namespace is going away. *)
Definition namespaceTerminating (err : error) : bool :=
  apierrors.IsForbidden err &&
  apierrors.HasStatusCause err corev1.NamespaceTerminatingCause.

(** After a task's action: does the loop go on to the next task? *)
Definition goes_on (task : Task) (err : option error) : bool :=
  match err with
  | None => true
  | Some e => negb (namespaceTerminating e) && negb (BailOnError task)
  end.

(** What the loop returns when it stops at a task's error. *)
Definition stops_with (err : option error) : option error :=
  match err with
  | Some e => if namespaceTerminating e then None else Some e
  | None => None
  end.

(** The loop of [RunTasks], over what is left of [r.tasks]. *)
Fixpoint RunTasks_loop (r : AmazonCloudWatchAgentReconciler)
    (tasks : list Task) (ctx : ctrl.Context) (params : reconcile.Params)
  : M (option error) :=
  match tasks with
  | [] => mret None
  | task :: tasks =>
    err ← do task ctx params;
    match err with
    | Some e =>
      (* If we get an error that occurs because a pod is being terminated,
         then exit this loop *)
      if namespaceTerminating e then
        _ ← Info (log r) 2
              "Exiting reconcile loop because namespace is being terminated"
              [("namespace",
                VString (v1alpha1.Namespace (reconcile.Instance params)))];
        mret None
      else
        _ ← Error (log r) e ("failed to reconcile " +:+ Name task);
        if BailOnError task then mret (Some e)
        else RunTasks_loop r tasks ctx params
    | None => RunTasks_loop r tasks ctx params
    end
  end.

(** [RunTasks] runs all the tasks associated with this reconciler. *)
Definition RunTasks (r : AmazonCloudWatchAgentReconciler) (ctx : ctrl.Context)
    (params : reconcile.Params) : M (option error) :=
  RunTasks_loop r (tasks r) ctx params.

(** [Reconcile] the current state of an Amazon CloudWatch Agent resource with
    the desired state. *)
Definition Reconcile (r : AmazonCloudWatchAgentReconciler) (ctx : ctrl.Context)
    (req : NamespacedName) : M (ctrl.Result * option error) :=
  let log' :=
    log r ++ [("amazoncloudwatchagent",
               VString (req_Namespace req +:+ "/" +:+ req_Name req))] in
  got ← get ctx req;
  match got with
  | inl err =>
    _ ← (if negb (apierrors.IsNotFound err)
         then Error log' err "unable to fetch AmazonCloudWatchAgent"
         else mret ());
    (* we'll ignore not-found errors, since they can't be fixed by an
       immediate requeue, and we can get them on deleted requests. *)
    mret (ctrl.mkResult false 0, client.IgnoreNotFound (Some err))
  | inr instance =>
    let params := {|
      reconcile.Config := config r;
      reconcile.Instance := instance;
      reconcile.Log := log';
      reconcile.Scheme := scheme r;
      reconcile.Recorder := recorder r
    |} in
    err ← RunTasks r ctx params;
    match err with
    | Some e => mret (ctrl.mkResult false 0, Some e)
    | None => mret (ctrl.mkResult false 0, None)
    end
  end.

(** The entries a step handed to the logger, in order. *)
Definition logged {A} (x : A * ctrl.World * list Event) : list LogEntry :=
  omap (λ ev, match ev with Logs entry => Some entry | Ran _ _ => None end)
       (events x).

(** What the loop of [RunTasks] logs after a task's action. *)
Definition note_of (r : AmazonCloudWatchAgentReconciler)
    (params : reconcile.Params) (x : Task * option error) : list LogEntry :=
  match x.2 with
  | None => []
  | Some e =>
    if namespaceTerminating e then
      [LogInfo 2 "Exiting reconcile loop because namespace is being terminated"
         (log r ++ [("namespace",
                     VString (v1alpha1.Namespace (reconcile.Instance params)))])]
    else [LogError e ("failed to reconcile " +:+ Name x.1) (log r)]
  end.

(** The cluster after the actions of [tasks], one after the other, from [w]. *)
Definition worlds (ctx : ctrl.Context) (params : reconcile.Params)
    (w : ctrl.World) (tasks : list Task) : ctrl.World :=
  foldl (λ w task, (Do task ctx params w).1) w tasks.

End Controller.

(** [Params] is the set of options to build a new
    amazonCloudWatchAgentReconciler. *)
Record Params `{ctrl.Pkg} : Type := mkParams {
  Recorder : ctrl.EventRecorder;
  Scheme : ctrl.Scheme;
  Log : Logger;
  Tasks : list Task;
  Config : config.Config
}.

Section Constructor.
Context `{GoError} `{!corev1.Opaque} `{!ctrl.Pkg} `{!reconcile.Pkg}.

(** [NewReconciler] creates a new reconciler for AmazonCloudWatchAgent
    objects. *)
Definition NewReconciler (p : Params) : AmazonCloudWatchAgentReconciler :=
  let r := {|
    log := Log p;
    scheme := Scheme p;
    config := Config p;
    tasks := Tasks p;
    recorder := Recorder p
  |} in
  if decide (length (tasks r) = 0) then
    {| log := log r;
       scheme := scheme r;
       config := config r;
       recorder := recorder r;
       tasks := [
         {| Do := reconcile.ConfigMaps;
            Name := "config maps";
            BailOnError := true |};
         {| Do := reconcile.ServiceAccounts;
            Name := "service accounts";
            BailOnError := true |};
         {| Do := reconcile.Services;
            Name := "services";
            BailOnError := true |};
         {| Do := reconcile.Deployments;
            Name := "deployments";
            BailOnError := true |};
         {| Do := reconcile.DaemonSets;
            Name := "daemon sets";
            BailOnError := true |};
         {| Do := reconcile.Self;
            Name := "amazon-cloudwatch-agent";
            BailOnError := true |}
       ] |}
  else r.

End Constructor.
End controllers.

(** ** One implementation of the interfaces, to run the code on *)

Module Example.

(** Errors: what the API server answers, or anything else. *)
Inductive err : Type :=
  | NotFound
  | Forbidden (causes : list string)
  | Other (msg : string).

#[export] Instance example_error : GoError := {| error := err |}.

#[export] Instance example_apierrors : apierrors.Pkg := {|
  apierrors.IsNotFound e := match e with NotFound => true | _ => false end;
  apierrors.IsForbidden e := match e with Forbidden _ => true | _ => false end;
  apierrors.HasStatusCause e name :=
    match e with
    | Forbidden causes => bool_decide (name ∈ causes)
    | _ => false
    end
|}.

#[export] Instance example_opaque : corev1.Opaque := {|
  corev1.EnvFromSource := string;
  corev1.ResourceRequirements := gmap string string;
  corev1.SecurityContext := string;
  corev1.Lifecycle := string
|}.

(** A port name of 1 to 15 bytes and a port number of 1 to 65535 pass. *)
#[export] Instance example_validation : validation.Pkg := {|
  validation.IsValidPortName name :=
    (if decide (15 < GoString.len name)
     then ["must be no more than 15 characters"] else []) ++
    (if decide (GoString.len name = 0)
     then ["must contain at least one letter (a-z)"] else []);
  validation.IsValidPortNum port :=
    if decide (1 ≤ port ≤ 65535)%Z then []
    else ["must be between 1 and 65535, inclusive"]
|}.

#[export] Instance example_constants : constants.Pkg := {|
  constants.CloudwatchAgentPorts :=
    [corev1.ServicePort.mk "emf-tcp" "TCP" 25888;
     corev1.ServicePort.mk "application-signals-http" "TCP" 4316;
     corev1.ServicePort.mk "unset" "UDP" 0]
|}.

#[export] Instance example_path : path.Pkg := {|
  path.Join elem := foldr (λ e acc, if decide (acc = "") then e
                                    else e +:+ "/" +:+ acc) "" elem
|}.

(** The process environment: the variables that are set. *)
#[export] Instance example_proxy : proxy.Pkg := {|
  proxy.Environ := gmap string string;
  proxy.ReadProxyVarsFromEnv environ :=
    mbind (M := list)
      (λ s, match environ !! s.1 with
            | Some value => [corev1.EnvVar.mk s.1 value None;
                             corev1.EnvVar.mk s.2 value None]
            | None => []
            end)
      [("HTTP_PROXY", "http_proxy"); ("HTTPS_PROXY", "https_proxy");
       ("NO_PROXY", "no_proxy")]
|}.

#[export] Instance example_naming : naming.Pkg := {|
  naming.ConfigMapVolume := "otc-internal";
  naming.Container := "otc-container";
  naming.ConfigMapExtra extraConfigMapName := "configmap-" +:+ extraConfigMapName
|}.

(** The cluster: the names of the objects written so far, and the custom
    resources it holds. *)
Record world : Type := mkWorld {
  written : list string;
  agents : list (NamespacedName * v1alpha1.AmazonCloudWatchAgent);
  unreachable : bool
}.

#[export] Instance NamespacedName_eq_dec : EqDecision NamespacedName.
Proof. solve_decision. Defined.

#[export] Instance example_ctrl : ctrl.Pkg := {|
  ctrl.World := world;
  ctrl.Context := ();
  ctrl.Scheme := ();
  ctrl.EventRecorder := ();
  ctrl.Get ctx req w :=
    if unreachable w then (w, inl (Other "connection refused"))
    else match list_find (λ a, a.1 = req) (agents w) with
         | Some (_, (_, instance)) => (w, inr instance)
         | None => (w, inl NotFound)
         end
|}.

Definition cfg : config.Config :=
  config.mk "amazon/cloudwatch-agent:latest" "cwagentconfig.json".

Definition agent (args : gmap string string) (ports : list corev1.ServicePort.t)
  : v1alpha1.AmazonCloudWatchAgent :=
  {| v1alpha1.Namespace := "amazon-cloudwatch";
     v1alpha1.Name := "cloudwatch-agent";
     v1alpha1.Spec := {|
       v1alpha1.Image := "";
       v1alpha1.ImagePullPolicy := "IfNotPresent";
       v1alpha1.Config := "{}";
       v1alpha1.Args := args;
       v1alpha1.Ports := ports;
       v1alpha1.VolumeMounts := [];
       v1alpha1.Env := [];
       v1alpha1.EnvFrom := [];
       v1alpha1.ConfigMaps := [];
       v1alpha1.Resources := ∅;
       v1alpha1.SecurityContext := None;
       v1alpha1.Lifecycle := None
     |} |}.

(** A task that writes its object, and tasks that fail. *)
Definition writes (name : string) (bail : bool) : controllers.Task :=
  {| controllers.Do := λ _ _ w,
       (mkWorld (written w ++ [name]) (agents w) (unreachable w), None);
     controllers.Name := name;
     controllers.BailOnError := bail |}.

Definition fails (name : string) (e : err) (bail : bool) : controllers.Task :=
  {| controllers.Do := λ _ _ w, (w, Some e);
     controllers.Name := name;
     controllers.BailOnError := bail |}.

Definition reconciler (tasks : list controllers.Task)
  : controllers.AmazonCloudWatchAgentReconciler :=
  {| controllers.recorder := ();
     controllers.scheme := ();
     controllers.log := [];
     controllers.config := cfg;
     controllers.tasks := tasks |}.

Definition params : reconcile.Params :=
  {| reconcile.Config := cfg;
     reconcile.Instance := agent ∅ [];
     reconcile.Log := [];
     reconcile.Scheme := ();
     reconcile.Recorder := () |}.

Definition empty_world : world := mkWorld [] [] false.

(** The reconcile helpers: each writes the objects of its kind, unless the
    cluster cannot be reached. *)
Definition converges (kind : string) (ctx : ()) (params : reconcile.Params)
    (w : world) : world * option err :=
  if unreachable w then (w, Some (Other "connection refused"))
  else (mkWorld (written w ++ [kind]) (agents w) (unreachable w), None).

#[export] Instance example_reconcile : reconcile.Pkg := {|
  reconcile.ConfigMaps := converges "ConfigMap";
  reconcile.ServiceAccounts := converges "ServiceAccount";
  reconcile.Services := converges "Service";
  reconcile.Deployments := converges "Deployment";
  reconcile.DaemonSets := converges "DaemonSet";
  reconcile.Self := converges "AmazonCloudWatchAgent"
|}.

(** Options without tasks. *)
Definition options : controllers.Params :=
  {| controllers.Recorder := ();
     controllers.Scheme := ();
     controllers.Log := [];
     controllers.Tasks := [];
     controllers.Config := cfg |}.

(** A cluster that cannot be reached, and one that holds the custom
    resource. *)
Definition request : NamespacedName :=
  mkNamespacedName "amazon-cloudwatch" "cloudwatch-agent".

Definition down_world : world := mkWorld [] [] true.

Definition up_world : world := mkWorld [] [(request, agent ∅ [])] false.

(** A flag map whose key ["a"] begins its key ["a-b"]. *)
Definition flags_a : gmap string string :=
  <["a" := "1"]> (<["a-b" := "3"]> (<["b" := "2"]> ∅)).

(** The same with a value for the reserved key. *)
Definition flags_config : gmap string string :=
  <["config" := "/tmp/mine.json"]> flags_a.

(** A process environment with a proxy. *)
Definition environ_proxy : gmap string string :=
  <["HTTP_PROXY" := "http://proxy:3128"]> ∅.

End Example.

(** * Properties *)

(** ** The order of Go strings *)

Module GoStringFacts.
Import GoString.

Lemma ascii_compare_refl a : Ascii.compare a a = Eq.
Proof. unfold Ascii.compare. apply N.compare_refl. Qed.

Lemma ascii_compare_lt_trans a b c :
  Ascii.compare a b = Lt → Ascii.compare b c = Lt → Ascii.compare a c = Lt.
Proof.
  unfold Ascii.compare. rewrite !N.compare_lt_iff. lia.
Qed.

Lemma compare_refl s : String.compare s s = Eq.
Proof.
  induction s as [|a s IH]; simpl; [done|].
  by rewrite ascii_compare_refl.
Qed.

Lemma compare_lt_trans s1 s2 s3 :
  String.compare s1 s2 = Lt → String.compare s2 s3 = Lt →
  String.compare s1 s3 = Lt.
Proof.
  revert s2 s3.
  induction s1 as [|a s1 IH]; intros [|b s2] [|c s3]; simpl; try done.
  destruct (Ascii.compare a b) eqn:Hab; try done;
    destruct (Ascii.compare b c) eqn:Hbc; try done.
  - apply Ascii.compare_eq_iff in Hab, Hbc. subst.
    rewrite ascii_compare_refl. apply IH.
  - apply Ascii.compare_eq_iff in Hab. subst. by rewrite Hbc.
  - apply Ascii.compare_eq_iff in Hbc. subst. by rewrite Hab.
  - by rewrite (ascii_compare_lt_trans a b c).
Qed.

Lemma le_lt_or_eq s1 s2 : le s1 s2 ↔ lt s1 s2 ∨ s1 = s2.
Proof.
  unfold le, lt, String.leb, String.ltb. split.
  - destruct (String.compare s1 s2) eqn:Hc; try done.
    + right. by apply String.compare_eq_iff.
    + by left.
  - intros [H| ->].
    + by destruct (String.compare s1 s2).
    + by rewrite compare_refl.
Qed.

Lemma lt_irrefl s : ¬ lt s s.
Proof. unfold lt, String.ltb. by rewrite compare_refl. Qed.

Lemma lt_le s1 s2 : lt s1 s2 → le s1 s2.
Proof. intros. apply le_lt_or_eq. by left. Qed.

Lemma lt_not_le s1 s2 : lt s1 s2 → ¬ le s2 s1.
Proof.
  unfold lt, le, String.ltb, String.leb.
  rewrite (String.compare_antisym s2 s1).
  by destruct (String.compare s1 s2).
Qed.

#[global] Instance lt_trans : Transitive lt.
Proof.
  intros s1 s2 s3. unfold lt, String.ltb.
  destruct (String.compare s1 s2) eqn:H12; try done.
  destruct (String.compare s2 s3) eqn:H23; try done.
  by rewrite (compare_lt_trans s1 s2 s3).
Qed.

#[global] Instance le_trans : Transitive le.
Proof.
  intros s1 s2 s3. rewrite !le_lt_or_eq.
  intros [H12| ->] [H23| ->]; auto.
  left. by transitivity s2.
Qed.

#[global] Instance le_total : Total le.
Proof. intros s1 s2. apply String.leb_total. Qed.

#[global] Instance le_antisym : AntiSymm (=) le.
Proof. intros s1 s2. apply String.leb_antisym. Qed.

#[global] Instance le_refl : Reflexive le.
Proof. intros s. apply le_lt_or_eq. by right. Qed.

End GoStringFacts.

Lemma sort_Strings_unique (l l' : list string) :
  l' ≡ₚ l → Sorted GoString.le l' → l' = sort_Strings l.
Proof.
  intros Hp Hs. apply (Sorted_unique GoString.le); [done| |].
  - apply Sorted_merge_sort, _.
  - unfold sort_Strings. by rewrite merge_sort_Permutation.
Qed.

Lemma sort_Strings_Sorted (l : list string) : Sorted GoString.le (sort_Strings l).
Proof. apply Sorted_merge_sort, _. Qed.

Lemma sort_Strings_Permutation (l : list string) : sort_Strings l ≡ₚ l.
Proof. apply merge_sort_Permutation. Qed.

Lemma sort_Strings_perm_eq (l1 l2 : list string) :
  l1 ≡ₚ l2 → sort_Strings l1 = sort_Strings l2.
Proof.
  intros Hp. apply sort_Strings_unique; [|apply sort_Strings_Sorted].
  by rewrite sort_Strings_Permutation.
Qed.

(** ** The task pipeline *)

Section ControllerProps.
Context `{GoError} `{!corev1.Opaque} `{!ctrl.Pkg} `{!apierrors.Pkg}.
Import controllers.

(** One turn of the loop. *)
Lemma RunTasks_loop_cons r task rest ctx params w :
  let w' := (Do task ctx params w).1 in
  let err := (Do task ctx params w).2 in
  executed (RunTasks_loop r (task :: rest) ctx params w)
    = (task, err) ::
      (if goes_on task err then executed (RunTasks_loop r rest ctx params w')
       else []) ∧
  returned (RunTasks_loop r (task :: rest) ctx params w)
    = (if goes_on task err then returned (RunTasks_loop r rest ctx params w')
       else stops_with err).
Proof.
  unfold executed, returned, events, goes_on, stops_with.
  simpl. unfold mbind, M_bind, do.
  destruct (Do task ctx params w) as [w' [e|]]; simpl.
  - destruct (namespaceTerminating e); simpl; [done|].
    destruct (BailOnError task); simpl; [done|].
    by destruct (RunTasks_loop r rest ctx params w') as [[ret w''] evs].
  - by destruct (RunTasks_loop r rest ctx params w') as [[ret w''] evs].
Qed.

Lemma RunTasks_loop_nil r ctx params w :
  executed (RunTasks_loop r [] ctx params w) = [] ∧
  returned (RunTasks_loop r [] ctx params w) = None.
Proof. done. Qed.

(** The tasks run in the order of the list, from its first, without gaps. *)
Lemma RunTasks_loop_executed_prefix r tasks ctx params w :
  (executed (RunTasks_loop r tasks ctx params w)).*1
    = take (length (executed (RunTasks_loop r tasks ctx params w))) tasks.
Proof.
  revert w. induction tasks as [|task rest IH]; intros w; [done|].
  destruct (RunTasks_loop_cons r task rest ctx params w) as [-> _].
  destruct (goes_on _ _); simpl; [|done].
  by rewrite <-IH.
Qed.

(** A task that fails and lets the loop stop is the last one to run, and
    decides what is returned. *)
Lemma RunTasks_loop_stops r tasks ctx params w k task e :
  executed (RunTasks_loop r tasks ctx params w) !! k = Some (task, Some e) →
  goes_on task (Some e) = false →
  returned (RunTasks_loop r tasks ctx params w) = stops_with (Some e) ∧
  length (executed (RunTasks_loop r tasks ctx params w)) = S k.
Proof.
  revert w k. induction tasks as [|t rest IH]; intros w k; [done|].
  destruct (RunTasks_loop_cons r t rest ctx params w) as [-> ->].
  intros Hk Hstop. destruct k as [|k]; simpl in Hk.
  - injection Hk as -> Herr. by rewrite Herr, Hstop.
  - destruct (goes_on t _); [|done].
    destruct (IH _ _ Hk Hstop) as [Hr Hl]. simpl. by rewrite Hr, Hl.
Qed.

(** A task after which the loop goes on is followed by the next of the list. *)
Lemma RunTasks_loop_goes_on r tasks ctx params w k task err next :
  executed (RunTasks_loop r tasks ctx params w) !! k = Some (task, err) →
  goes_on task err = true →
  tasks !! S k = Some next →
  ∃ o, executed (RunTasks_loop r tasks ctx params w) !! S k = Some (next, o).
Proof.
  revert w k. induction tasks as [|t rest IH]; intros w k; [done|].
  destruct (RunTasks_loop_cons r t rest ctx params w) as [-> _].
  intros Hk Hgo Hnext. destruct k as [|k]; simpl in Hk, Hnext.
  - injection Hk as -> Herr. rewrite Herr, Hgo.
    destruct rest as [|t' rest']; [done|]. injection Hnext as ->.
    destruct (RunTasks_loop_cons r next rest' ctx params
                (Do task ctx params w).1) as [-> _].
    simpl. eauto.
  - destruct (goes_on t _); [|done]. simpl. eauto.
Qed.

(** An error comes back only from a task that failed with it, was to bail,
    and did not meet a terminating namespace. *)
Lemma RunTasks_loop_returns_error r tasks ctx params w e :
  returned (RunTasks_loop r tasks ctx params w) = Some e →
  ∃ k task,
    executed (RunTasks_loop r tasks ctx params w) !! k = Some (task, Some e) ∧
    BailOnError task = true ∧ namespaceTerminating e = false.
Proof.
  revert w. induction tasks as [|t rest IH]; intros w; [done|].
  destruct (RunTasks_loop_cons r t rest ctx params w) as [-> ->].
  destruct (goes_on t _) eqn:Hgo.
  - intros (k & task & ? & ?)%IH. by exists (S k), task.
  - intros Hret. exists 0, t. simpl.
    destruct (Do t ctx params w).2 as [e'|]; simpl in *; [|done].
    destruct (namespaceTerminating e') eqn:Hns; simpl in *; [done|].
    injection Hret as ->. by destruct (BailOnError t).
Qed.

(** C2. If task [k] runs, its action returns an error that is not the
    namespace-terminating condition, and the task has [BailOnError = true],
    then [RunTasks] returns that error, and the tasks it executed are exactly
    the first [k + 1] of the list: none after [k]. *)
Theorem RunTasks_bail_on_error r ctx params w k task e :
  executed (RunTasks r ctx params w) !! k = Some (task, Some e) →
  namespaceTerminating e = false →
  BailOnError task = true →
  returned (RunTasks r ctx params w) = Some e ∧
  (executed (RunTasks r ctx params w)).*1 = take (S k) (tasks r).
Proof.
  unfold RunTasks. intros Hk Hns Hbail.
  destruct (RunTasks_loop_stops r (tasks r) ctx params w k task e Hk)
    as [Hret Hlen].
  { unfold goes_on. by rewrite Hns, Hbail. }
  split.
  - rewrite Hret. unfold stops_with. by rewrite Hns.
  - by rewrite RunTasks_loop_executed_prefix, Hlen.
Qed.

(** C3. If task [k] runs and its action fails with a forbidden-operation error
    that carries the namespace-terminating cause, then [RunTasks] returns nil,
    and the tasks it executed are exactly the first [k + 1] of the list,
    whatever the task's [BailOnError] flag. *)
Theorem RunTasks_namespace_terminating r ctx params w k task e :
  executed (RunTasks r ctx params w) !! k = Some (task, Some e) →
  apierrors.IsForbidden e = true →
  apierrors.HasStatusCause e corev1.NamespaceTerminatingCause = true →
  returned (RunTasks r ctx params w) = None ∧
  (executed (RunTasks r ctx params w)).*1 = take (S k) (tasks r).
Proof.
  unfold RunTasks. intros Hk Hforbidden Hcause.
  assert (namespaceTerminating e = true) as Hns.
  { unfold namespaceTerminating. by rewrite Hforbidden, Hcause. }
  destruct (RunTasks_loop_stops r (tasks r) ctx params w k task e Hk)
    as [Hret Hlen].
  { unfold goes_on. by rewrite Hns. }
  split.
  - rewrite Hret. unfold stops_with. by rewrite Hns.
  - by rewrite RunTasks_loop_executed_prefix, Hlen.
Qed.

(** C4. If task [k] runs, its action returns an error that is not the
    namespace-terminating condition, and the task has [BailOnError = false],
    then the next task of the list, if there is one, runs as well; and
    [RunTasks] returns nil whenever no task with [BailOnError = true] fails. *)
Theorem RunTasks_continue_on_error r ctx params w :
  (∀ k task e next,
     executed (RunTasks r ctx params w) !! k = Some (task, Some e) →
     namespaceTerminating e = false →
     BailOnError task = false →
     tasks r !! S k = Some next →
     ∃ outcome,
       executed (RunTasks r ctx params w) !! S k = Some (next, outcome)) ∧
  ((∀ k task e,
      executed (RunTasks r ctx params w) !! k = Some (task, Some e) →
      BailOnError task = false) →
   returned (RunTasks r ctx params w) = None).
Proof.
  unfold RunTasks. split.
  - intros k task e next Hk Hns Hbail Hnext.
    apply (RunTasks_loop_goes_on r (tasks r) ctx params w k task (Some e));
      [done| |done].
    unfold goes_on. by rewrite Hns, Hbail.
  - intros Hnobail.
    destruct (returned (RunTasks_loop r (tasks r) ctx params w)) as [e|] eqn:Hret;
      [|done].
    apply RunTasks_loop_returns_error in Hret as (k & task & Hk & Hbail & _).
    apply Hnobail in Hk. congruence.
Qed.

(** C5. [Reconcile] fetches the custom resource.  On a not-found error it
    returns a nil error and runs no task; on any other error of the fetch it
    returns that error and runs no task; on a fetched resource it runs
    [RunTasks] on the parameter bundle built around it, and returns the error
    or nil that [RunTasks] returns. *)
Theorem Reconcile_fetch r ctx req w w' :
  (∀ err, ctrl.Get ctx req w = (w', inl err) →
     (returned (Reconcile r ctx req w)).2
       = (if apierrors.IsNotFound err then None else Some err) ∧
     executed (Reconcile r ctx req w) = [] ∧
     world_after (Reconcile r ctx req w) = w') ∧
  (∀ instance, ctrl.Get ctx req w = (w', inr instance) →
     let params := {|
       reconcile.Config := config r;
       reconcile.Instance := instance;
       reconcile.Log :=
         log r ++ [("amazoncloudwatchagent",
                    VString (req_Namespace req +:+ "/" +:+ req_Name req))];
       reconcile.Scheme := scheme r;
       reconcile.Recorder := recorder r
     |} in
     (returned (Reconcile r ctx req w)).2
       = returned (RunTasks r ctx params w') ∧
     executed (Reconcile r ctx req w) = executed (RunTasks r ctx params w') ∧
     world_after (Reconcile r ctx req w)
       = world_after (RunTasks r ctx params w')).
Proof.
  unfold Reconcile, executed, returned, world_after, events.
  unfold mbind, M_bind, get. split.
  - intros err ->. simpl.
    by destruct (apierrors.IsNotFound err).
  - intros instance ->. simpl.
    destruct (RunTasks r ctx _ w') as [[[e|] w''] evs]; simpl;
      by rewrite app_nil_r.
Qed.

End ControllerProps.

(** ** The container builder *)

Section CollectorProps.
Context `{GoError} `{!corev1.Opaque} `{!validation.Pkg} `{!constants.Pkg}
  `{!path.Pkg} `{!proxy.Pkg} `{!naming.Pkg}.
Import collector.

(** The flag map as the loop over it finds it: without the reserved key when
    the primary configuration is added. *)
Lemma Container_Spec_Args rt environ cfg otelcol addConfig :
  Spec_Args (Container rt environ cfg otelcol addConfig).1
    = if addConfig then delete "config" (v1alpha1.Args (v1alpha1.Spec otelcol))
      else v1alpha1.Args (v1alpha1.Spec otelcol).
Proof.
  unfold Container, mbind, Logged_bind, mret, Logged_ret. simpl.
  destruct addConfig; simpl; [|done].
  destruct (decide (is_Some _)) as [|Hnone]; simpl; [done|].
  symmetry. apply delete_id. by apply eq_None_not_Some.
Qed.

Lemma Container_Args rt environ cfg otelcol addConfig :
  corev1.Container.Args (container (Container rt environ cfg otelcol addConfig).1)
    = (if addConfig
       then ["--config=/conf/" +:+ config.CollectorConfigMapEntry cfg] else [])
      ++ sort_Strings
           (flag_of <$>
              range rt (Spec_Args (Container rt environ cfg otelcol addConfig).1)).
Proof.
  unfold Container, mbind, Logged_bind, mret, Logged_ret. simpl.
  destruct addConfig; simpl; [|done].
  by destruct (decide (is_Some _)).
Qed.

Lemma Container_Ports rt environ cfg otelcol addConfig :
  corev1.Container.Ports (container (Container rt environ cfg otelcol addConfig).1)
    = portMapToList rt
        (overlay_ports
           (getConfigContainerPorts_loop constants.CloudwatchAgentPorts ∅).1
           (v1alpha1.Ports (v1alpha1.Spec otelcol))).
Proof.
  unfold Container, getConfigContainerPorts, mbind, Logged_bind, mret, Logged_ret.
  simpl. destruct addConfig; simpl; repeat case_decide; done.
Qed.

Lemma Container_Env rt environ cfg otelcol addConfig :
  corev1.Container.Env (container (Container rt environ cfg otelcol addConfig).1)
    = (v1alpha1.Env (v1alpha1.Spec otelcol)
       ++ [corev1.EnvVar.mk "POD_NAME" "" (Some (corev1.FieldRef "metadata.name"))])
      ++ proxy.ReadProxyVarsFromEnv environ.
Proof.
  unfold Container, mbind, Logged_bind, mret, Logged_ret.
  simpl. destruct addConfig; simpl; repeat case_decide; done.
Qed.

(** *** The loop over the default ports *)

Lemma getConfigContainerPorts_loop_cons p table ports :
  (getConfigContainerPorts_loop (p :: table) ports).1
    = (getConfigContainerPorts_loop table
         (if decide (dropped p) then ports
          else <[truncName_of p :=
                   corev1.ContainerPort.mk (truncName_of p)
                     (corev1.ServicePort.Port p)
                     (corev1.ServicePort.Protocol p)]> ports)).1.
Proof.
  simpl. unfold mbind, Logged_bind, dropped, truncName_of. simpl.
  by destruct (decide (_ ∨ _)).
Qed.

Lemma getConfigContainerPorts_error cfg' :
  (getConfigContainerPorts cfg').1.2 = None.
Proof. done. Qed.

Lemma keyed_by_name_insert ports name port proto :
  keyed_by_name ports →
  keyed_by_name (<[name := corev1.ContainerPort.mk name port proto]> ports).
Proof. intros Hk. by apply map_Forall_insert_2. Qed.

Lemma getConfigContainerPorts_loop_keyed table ports :
  keyed_by_name ports →
  keyed_by_name (getConfigContainerPorts_loop table ports).1.
Proof.
  revert ports. induction table as [|p table IH]; intros ports Hk; [done|].
  rewrite getConfigContainerPorts_loop_cons. apply IH.
  destruct (decide (dropped p)); [done|]. by apply keyed_by_name_insert.
Qed.

Lemma overlay_ports_keyed ports explicit :
  keyed_by_name ports → keyed_by_name (overlay_ports ports explicit).
Proof.
  revert ports. induction explicit as [|p explicit IH]; intros ports Hk; [done|].
  simpl. apply IH. by apply keyed_by_name_insert.
Qed.

(** The last explicit port of a name is the one the map holds; a name that no
    explicit port has keeps what the map held. *)
Lemma overlay_ports_lookup ports explicit X :
  overlay_ports ports explicit !! X
    = match last (filter (λ p, corev1.ServicePort.Name p = X) explicit) with
      | Some u => Some (corev1.ContainerPort.mk X (corev1.ServicePort.Port u)
                          (corev1.ServicePort.Protocol u))
      | None => ports !! X
      end.
Proof.
  revert ports. induction explicit as [|p explicit IH]; intros ports; [done|].
  simpl. rewrite IH, filter_cons.
  destruct (decide (corev1.ServicePort.Name p = X)) as [<-|Hne].
  - rewrite last_cons. rewrite lookup_insert_eq.
    by destruct (last (filter _ explicit)).
  - by rewrite lookup_insert_ne.
Qed.

(** *** Sorting ports by name *)

#[local] Instance name_le_trans : Transitive name_le.
Proof. intros p q r. unfold name_le. apply GoStringFacts.le_trans. Qed.

#[local] Instance name_le_total : Total name_le.
Proof. intros p q. unfold name_le. apply GoStringFacts.le_total. Qed.

Lemma NoDup_fmap_eq {A B} (f : A → B) (l : list A) x y :
  NoDup (f <$> l) → x ∈ l → y ∈ l → f x = f y → x = y.
Proof.
  induction l as [|a l IH]; simpl; [by intros _ ?%elem_of_nil|].
  rewrite NoDup_cons. intros [Hnotin Hnd] Hx Hy Hf.
  apply elem_of_cons in Hx as [->|Hx], Hy as [->|Hy]; auto.
  - destruct Hnotin. rewrite Hf. by apply list_elem_of_fmap_2.
  - destruct Hnotin. rewrite <-Hf. by apply list_elem_of_fmap_2.
Qed.

Lemma filter_none {A} (P : A → Prop) `{∀ x, Decision (P x)} (l : list A) :
  (∀ y, y ∈ l → ¬ P y) → filter P l = [].
Proof.
  induction l as [|a l IH]; intros Hall; [done|].
  rewrite filter_cons_False by (apply Hall; left).
  apply IH. intros y Hy. apply Hall. by right.
Qed.

Lemma filter_NoDup_fmap {A B} `{EqDecision B} (f : A → B) (l : list A) x :
  NoDup (f <$> l) → x ∈ l → filter (λ y, f y = f x) l = [x].
Proof.
  induction l as [|a l IH]; simpl; [by intros _ ?%elem_of_nil|].
  rewrite NoDup_cons. intros [Hnotin Hnd] Hx.
  rewrite filter_cons. apply elem_of_cons in Hx as [->|Hx].
  - rewrite decide_True by done. f_equal.
    apply filter_none. intros y Hy Hf. destruct Hnotin.
    rewrite <-Hf. by apply list_elem_of_fmap_2.
  - rewrite decide_False; [by apply IH|].
    intros Hf. destruct Hnotin. rewrite Hf. by apply list_elem_of_fmap_2.
Qed.

Lemma sort_Slice_Name_Permutation l : sort_Slice_Name l ≡ₚ l.
Proof. apply merge_sort_Permutation. Qed.

Lemma sort_Slice_Name_Sorted l : Sorted name_le (sort_Slice_Name l).
Proof. apply Sorted_merge_sort, _. Qed.

(** Among ports of different names, every sorting algorithm gives the same
    list. *)
Lemma sort_Slice_Name_unique l l' :
  NoDup (corev1.ContainerPort.Name <$> l) →
  l' ≡ₚ l → Sorted name_le l' → l' = sort_Slice_Name l.
Proof.
  intros Hnd Hp Hs.
  apply (Sorted_unique_strong name_le); [|done|apply sort_Slice_Name_Sorted|].
  - intros p q Hp' Hq Hpq Hqp.
    apply (NoDup_fmap_eq corev1.ContainerPort.Name l); [done| | |].
    + by rewrite <-Hp.
    + by rewrite <-(sort_Slice_Name_Permutation l).
    + by apply GoStringFacts.le_antisym.
  - by rewrite sort_Slice_Name_Permutation.
Qed.

Lemma StronglySorted_name_lt l :
  NoDup (corev1.ContainerPort.Name <$> l) →
  Sorted name_le l → StronglySorted name_lt l.
Proof.
  intros Hnd Hs. apply Sorted_StronglySorted in Hs; [|apply _].
  induction Hs as [|p l Hs IH Hall]; [constructor|].
  simpl in Hnd. apply NoDup_cons in Hnd as [Hnotin Hnd].
  constructor; [by apply IH|].
  apply Forall_forall. intros q Hq.
  rewrite Forall_forall in Hall. specialize (Hall q Hq).
  apply GoStringFacts.le_lt_or_eq in Hall as [Hlt|Heq]; [done|].
  destruct Hnotin. rewrite Heq. by apply list_elem_of_fmap_2.
Qed.

(** *** From the port map to the port list *)

Lemma range_values_names rt ports :
  keyed_by_name ports →
  corev1.ContainerPort.Name <$> (range rt ports).*2 = (range rt ports).*1.
Proof.
  intros Hk. rewrite <-list_fmap_compose.
  apply Forall_fmap_ext_1.
  apply Forall_forall. intros [k p] Hin. simpl.
  apply Hk. apply elem_of_map_to_list.
  by rewrite <-(range_perm rt _ ports).
Qed.

Lemma range_values_NoDup rt ports :
  keyed_by_name ports →
  NoDup (corev1.ContainerPort.Name <$> (range rt ports).*2).
Proof.
  intros Hk. rewrite range_values_names by done.
  rewrite (range_perm rt _ ports). apply NoDup_fst_map_to_list.
Qed.

Lemma portMapToList_Permutation rt ports :
  portMapToList rt ports ≡ₚ (map_to_list ports).*2.
Proof.
  unfold portMapToList. rewrite sort_Slice_Name_Permutation.
  by rewrite (range_perm rt _ ports).
Qed.

Lemma portMapToList_NoDup rt ports :
  keyed_by_name ports →
  NoDup (corev1.ContainerPort.Name <$> portMapToList rt ports).
Proof.
  intros Hk. unfold portMapToList.
  rewrite sort_Slice_Name_Permutation. by apply range_values_NoDup.
Qed.

(** Whatever algorithm [sort.Slice] runs and in whatever order the map is
    ranged over, the list that comes out is the same. *)
Lemma portMapToList_unique rt ports l' :
  keyed_by_name ports →
  l' ≡ₚ (map_to_list ports).*2 → Sorted name_le l' →
  l' = portMapToList rt ports.
Proof.
  intros Hk Hp Hs. unfold portMapToList.
  apply sort_Slice_Name_unique; [by apply range_values_NoDup| |done].
  by rewrite Hp, (range_perm rt _ ports).
Qed.

Lemma portMapToList_range rt1 rt2 ports :
  keyed_by_name ports → portMapToList rt1 ports = portMapToList rt2 ports.
Proof.
  intros Hk. apply portMapToList_unique; [done| |].
  - apply portMapToList_Permutation.
  - apply sort_Slice_Name_Sorted.
Qed.

Lemma portMapToList_sorted rt ports :
  keyed_by_name ports → StronglySorted name_lt (portMapToList rt ports).
Proof.
  intros Hk. apply StronglySorted_name_lt.
  - by apply portMapToList_NoDup.
  - apply sort_Slice_Name_Sorted.
Qed.

Lemma portMapToList_elem_of rt ports X p :
  ports !! X = Some p → p ∈ portMapToList rt ports.
Proof.
  intros Hl. rewrite portMapToList_Permutation.
  apply list_elem_of_fmap. exists (X, p). split; [done|].
  by apply elem_of_map_to_list.
Qed.

Lemma portMapToList_filter rt ports X p :
  keyed_by_name ports → ports !! X = Some p →
  filter (λ q, corev1.ContainerPort.Name q = X) (portMapToList rt ports) = [p].
Proof.
  intros Hk Hl. rewrite <-(Hk X p Hl).
  apply (filter_NoDup_fmap corev1.ContainerPort.Name).
  - by apply portMapToList_NoDup.
  - by apply (portMapToList_elem_of rt ports X).
Qed.

(** The port map of [Container] is keyed by the names of its ports. *)
Lemma Container_ports_keyed explicit :
  keyed_by_name
    (overlay_ports
       (getConfigContainerPorts_loop constants.CloudwatchAgentPorts ∅).1 explicit).
Proof.
  apply overlay_ports_keyed, getConfigContainerPorts_loop_keyed.
  apply map_Forall_empty.
Qed.

(** C8. For every default port table and every list of user-declared ports:
    a name [X] that some user-declared port has is the name of exactly one
    entry of the output port list, and that entry carries the number and the
    protocol the user declared for [X] (the last declaration, when the name is
    declared more than once), whether or not a default port has the name [X]
    after truncation; and the output port list is sorted by port name, each
    name strictly below the next. *)
Theorem Container_port_override rt environ cfg otelcol addConfig X :
  X ∈ corev1.ServicePort.Name <$> v1alpha1.Ports (v1alpha1.Spec otelcol) →
  ∃ u,
    last (filter (λ p, corev1.ServicePort.Name p = X)
            (v1alpha1.Ports (v1alpha1.Spec otelcol))) = Some u ∧
    filter (λ q, corev1.ContainerPort.Name q = X)
      (corev1.Container.Ports
         (container (Container rt environ cfg otelcol addConfig).1))
      = [corev1.ContainerPort.mk X (corev1.ServicePort.Port u)
           (corev1.ServicePort.Protocol u)] ∧
    StronglySorted name_lt
      (corev1.Container.Ports
         (container (Container rt environ cfg otelcol addConfig).1)).
Proof.
  intros (u0 & -> & Hu0)%list_elem_of_fmap.
  rewrite Container_Ports.
  set (explicit := v1alpha1.Ports (v1alpha1.Spec otelcol)) in *.
  pose proof (Container_ports_keyed explicit) as Hk.
  destruct (last (filter (λ p, corev1.ServicePort.Name p
                                 = corev1.ServicePort.Name u0) explicit))
    as [u|] eqn:Hlast.
  - exists u. split; [done|]. split; [|by apply portMapToList_sorted].
    apply portMapToList_filter; [done|].
    by rewrite overlay_ports_lookup, Hlast.
  - apply last_None in Hlast.
    assert (u0 ∈ filter (λ p, corev1.ServicePort.Name p
                                = corev1.ServicePort.Name u0) explicit) as Hin
      by by apply list_elem_of_filter.
    rewrite Hlast in Hin. by apply elem_of_nil in Hin.
Qed.

(** *** The argument list *)

Lemma sorted_flags_range rt (m : gmap string string) :
  sort_Strings (flag_of <$> range rt m)
    = sort_Strings (flag_of <$> map_to_list m).
Proof. apply sort_Strings_perm_eq. by rewrite (range_perm rt _ m). Qed.

Lemma flag_elem_of (m : gmap string string) k v :
  m !! k = Some v →
  Sprintf_flag k v ∈ sort_Strings (flag_of <$> map_to_list m).
Proof.
  intros Hl. rewrite sort_Strings_Permutation.
  apply list_elem_of_fmap. exists (k, v). split; [done|].
  by apply elem_of_map_to_list.
Qed.


Lemma length_flags (m : gmap string string) :
  length (sort_Strings (flag_of <$> map_to_list m)) = size m.
Proof.
  rewrite sort_Strings_Permutation, length_fmap. apply length_map_to_list.
Qed.

(** Keys of which neither begins the other are ordered like their
    arguments. *)
Lemma lt_app_no_prefix k1 k2 s1 s2 :
  GoString.lt k1 k2 → String.prefix k1 k2 = false →
  GoString.lt (k1 +:+ s1) (k2 +:+ s2).
Proof.
  unfold GoString.lt, String.ltb. revert k2.
  induction k1 as [|c1 k1 IH]; intros [|c2 k2]; simpl; try done.
  destruct (Ascii.compare c1 c2) eqn:Hc; try done.
  apply Ascii.compare_eq_iff in Hc as ->.
  destruct (ascii_dec c2 c2); [|done]. apply IH.
Qed.

Lemma Sprintf_flag_lt k1 v1 k2 v2 :
  GoString.lt k1 k2 → String.prefix k1 k2 = false →
  GoString.lt (Sprintf_flag k1 v1) (Sprintf_flag k2 v2).
Proof.
  intros Hlt Hpre.
  pose proof (lt_app_no_prefix k1 k2 ("=" +:+ v1) ("=" +:+ v2) Hlt Hpre) as Happ.
  unfold Sprintf_flag, GoString.lt, String.ltb in *. exact Happ.
Qed.

Lemma StronglySorted_lookup_le {A} (R : relation A) (l : list A) i j a b :
  StronglySorted R l → i < j → l !! i = Some a → l !! j = Some b → R a b.
Proof.
  intros Hs. revert i j. induction Hs as [|x l Hs IH Hall]; intros i j Hij Hi Hj.
  { by rewrite lookup_nil in Hi. }
  destruct j as [|j]; [lia|]. destruct i as [|i]; simpl in *.
  - injection Hi as ->. rewrite Forall_forall in Hall.
    apply Hall. by apply list_elem_of_lookup_2 in Hj.
  - apply (IH i j); [lia|done..].
Qed.

Lemma Sorted_before_in (l : list string) a b :
  Sorted GoString.le l → a ∈ l → b ∈ l → GoString.lt a b → before_in l a b.
Proof.
  intros Hs [i Hi]%list_elem_of_lookup_1 [j Hj]%list_elem_of_lookup_1 Hlt.
  apply Sorted_StronglySorted in Hs; [|apply _].
  destruct (Nat.lt_total i j) as [Hij|[->|Hji]].
  - by exists i, j.
  - rewrite Hi in Hj. injection Hj as ->. by apply GoStringFacts.lt_irrefl in Hlt.
  - pose proof (StronglySorted_lookup_le _ _ _ _ _ _ Hs Hji Hj Hi) as Hle.
    by apply GoStringFacts.lt_not_le in Hlt.
Qed.

(** C6, as the code has it.  The flags that remain (all of them, or all but
    ["config"] when the primary configuration is added) each appear in the
    argument list as ["--k=v"]; these arguments follow the system-generated
    flag, if any, and stand in the increasing bytewise order of the rendered
    strings ["--k=v"], whatever the order in which the map is ranged over.
    That is the order of the keys for any two keys of which the smaller does
    not begin the larger. *)
Theorem Container_user_flags_sorted rt environ cfg otelcol addConfig :
  ∃ flags,
    corev1.Container.Args
      (container (Container rt environ cfg otelcol addConfig).1)
      = (if addConfig
         then ["--config=/conf/" +:+ config.CollectorConfigMapEntry cfg]
         else []) ++ flags ∧
    flags
      = sort_Strings
          (flag_of <$>
             map_to_list
               (if addConfig
                then delete "config" (v1alpha1.Args (v1alpha1.Spec otelcol))
                else v1alpha1.Args (v1alpha1.Spec otelcol))) ∧
    Sorted GoString.le flags ∧
    (∀ k v,
       (if addConfig
        then delete "config" (v1alpha1.Args (v1alpha1.Spec otelcol))
        else v1alpha1.Args (v1alpha1.Spec otelcol)) !! k = Some v →
       Sprintf_flag k v ∈ flags) ∧
    (∀ k1 v1 k2 v2,
       (if addConfig
        then delete "config" (v1alpha1.Args (v1alpha1.Spec otelcol))
        else v1alpha1.Args (v1alpha1.Spec otelcol)) !! k1 = Some v1 →
       (if addConfig
        then delete "config" (v1alpha1.Args (v1alpha1.Spec otelcol))
        else v1alpha1.Args (v1alpha1.Spec otelcol)) !! k2 = Some v2 →
       GoString.lt k1 k2 → String.prefix k1 k2 = false →
       before_in flags (Sprintf_flag k1 v1) (Sprintf_flag k2 v2)).
Proof.
  rewrite Container_Args, Container_Spec_Args, sorted_flags_range.
  eexists. split; [done|]. split; [done|].
  split; [apply sort_Strings_Sorted|].
  split; [apply flag_elem_of|].
  intros k1 v1 k2 v2 H1' H2' Hlt Hpre.
  apply Sorted_before_in; [apply sort_Strings_Sorted| | |].
  - by apply flag_elem_of.
  - by apply flag_elem_of.
  - by apply Sprintf_flag_lt.
Qed.


(** C10. When the primary configuration is not added, a flag ["config"] with
    value [v] is not stripped: the argument list is the sorted arguments of
    all the user's flags and nothing else, no system-generated flag comes
    first, ["--config=v"] is among them, and the flag map is left as it
    was. *)
Theorem Container_config_flag_kept rt environ cfg otelcol v :
  v1alpha1.Args (v1alpha1.Spec otelcol) !! "config" = Some v →
  corev1.Container.Args (container (Container rt environ cfg otelcol false).1)
    = sort_Strings
        (flag_of <$> map_to_list (v1alpha1.Args (v1alpha1.Spec otelcol))) ∧
  length
    (corev1.Container.Args (container (Container rt environ cfg otelcol false).1))
    = size (v1alpha1.Args (v1alpha1.Spec otelcol)) ∧
  "--config=" +:+ v
    ∈ corev1.Container.Args (container (Container rt environ cfg otelcol false).1) ∧
  Spec_Args (Container rt environ cfg otelcol false).1
    = v1alpha1.Args (v1alpha1.Spec otelcol).
Proof.
  intros Hconfig.
  rewrite Container_Args, Container_Spec_Args, sorted_flags_range. simpl.
  split; [done|]. split; [apply length_flags|]. split; [|done].
  by apply (flag_elem_of _ "config" v).
Qed.

(** The order in which the runtime ranges over the maps does not show in what
    [Container] returns, leaves and logs. *)
Lemma Container_range rt1 rt2 environ cfg otelcol addConfig :
  Container rt1 environ cfg otelcol addConfig
    = Container rt2 environ cfg otelcol addConfig.
Proof.
  unfold Container, getConfigContainerPorts, mbind, Logged_bind, mret, Logged_ret.
  simpl.
  rewrite (portMapToList_range rt1 rt2) by apply Container_ports_keyed.
  destruct addConfig; simpl.
  - case_decide; simpl;
      by rewrite (sorted_flags_range rt1), (sorted_flags_range rt2).
  - by rewrite (sorted_flags_range rt1), (sorted_flags_range rt2).
Qed.

(** C1, as the code has it.  [Container] is a function of the configuration
    defaults, the custom resource, the [addConfig] flag, and the process
    environment from which it reads the proxy variables: for the same
    [(cfg, otelcol, addConfig)] and the same environment, two calls return the
    same container, with the port list, the argument list and the environment
    list in the same order, in whatever order the runtime ranges over the
    maps in either call. *)
Theorem Container_deterministic rt1 rt2 environ cfg otelcol addConfig :
  container (Container rt1 environ cfg otelcol addConfig).1
    = container (Container rt2 environ cfg otelcol addConfig).1 ∧
  corev1.Container.Ports (container (Container rt1 environ cfg otelcol addConfig).1)
    = corev1.Container.Ports
        (container (Container rt2 environ cfg otelcol addConfig).1) ∧
  corev1.Container.Args (container (Container rt1 environ cfg otelcol addConfig).1)
    = corev1.Container.Args
        (container (Container rt2 environ cfg otelcol addConfig).1) ∧
  corev1.Container.Env (container (Container rt1 environ cfg otelcol addConfig).1)
    = corev1.Container.Env
        (container (Container rt2 environ cfg otelcol addConfig).1).
Proof. by rewrite (Container_range rt1 rt2). Qed.

(** *** Default ports: truncation and validation *)

Lemma length_slice_to s n : GoString.len (GoString.slice_to s n) ≤ n.
Proof.
  unfold GoString.len, GoString.slice_to. revert s.
  induction n as [|n IH]; intros [|c s]; simpl; try lia.
  specialize (IH s). lia.
Qed.

Lemma prefix_slice_to s n : String.prefix (GoString.slice_to s n) s = true.
Proof.
  unfold GoString.slice_to. revert s.
  induction n as [|n IH]; intros [|c s]; simpl; try done.
  destruct (ascii_dec c c); [apply IH|done].
Qed.

Lemma prefix_refl s : String.prefix s s = true.
Proof.
  induction s as [|c s IH]; simpl; [done|].
  by destruct (ascii_dec c c).
Qed.

Lemma Truncate_len format max : GoString.len (naming.Truncate format max) ≤ max.
Proof.
  unfold naming.Truncate. case_decide; [apply length_slice_to|lia].
Qed.

Lemma Truncate_prefix format max :
  String.prefix (naming.Truncate format max) format = true.
Proof.
  unfold naming.Truncate. case_decide; [apply prefix_slice_to|apply prefix_refl].
Qed.

Lemma Truncate_short format max :
  GoString.len format ≤ max → naming.Truncate format max = format.
Proof. unfold naming.Truncate. intros. case_decide; [lia|done]. Qed.

Lemma getConfigContainerPorts_loop_log_cons p table ports :
  (getConfigContainerPorts_loop (p :: table) ports).2
    = (if decide (corev1.ServicePort.Name p ≠ truncName_of p)
       then [truncating_note p] else [])
      ++ (if decide (dropped p) then [dropping_note p] else [])
      ++ (getConfigContainerPorts_loop table
            (if decide (dropped p) then ports
             else <[truncName_of p :=
                      corev1.ContainerPort.mk (truncName_of p)
                        (corev1.ServicePort.Port p)
                        (corev1.ServicePort.Protocol p)]> ports)).2.
Proof.
  simpl. unfold mbind, Logged_bind, dropped, truncating_note, dropping_note,
    truncName_of.
  destruct (decide (_ ≠ _)); destruct (decide (_ ∨ _)); done.
Qed.

(** An entry of the result was there from the start or was made of a default
    port that passed validation. *)
Lemma getConfigContainerPorts_loop_lookup table ports k cp :
  (getConfigContainerPorts_loop table ports).1 !! k = Some cp →
  ports !! k = Some cp ∨
  ∃ p, p ∈ table ∧ ¬ dropped p ∧ k = truncName_of p ∧
       cp = corev1.ContainerPort.mk (truncName_of p)
              (corev1.ServicePort.Port p) (corev1.ServicePort.Protocol p).
Proof.
  revert ports. induction table as [|p table IH]; intros ports; [by left|].
  rewrite getConfigContainerPorts_loop_cons.
  intros [Hl|(q & Hq & ?)]%IH.
  - destruct (decide (dropped p)) as [|Hvalid]; [by left|].
    apply lookup_insert_Some in Hl as [[<- <-]|[_ Hl]]; [|by left].
    right. exists p. split; [left|done].
  - right. exists q. split; [by right|done].
Qed.

(** A name that has an entry keeps one to the end of the loop. *)
Lemma getConfigContainerPorts_loop_keeps table ports k :
  is_Some (ports !! k) →
  is_Some ((getConfigContainerPorts_loop table ports).1 !! k).
Proof.
  revert ports. induction table as [|p table IH]; intros ports Hs; [done|].
  rewrite getConfigContainerPorts_loop_cons. apply IH.
  destruct (decide (dropped p)); [done|].
  rewrite lookup_insert. case_decide; [eauto|done].
Qed.

Lemma getConfigContainerPorts_loop_includes table ports p :
  p ∈ table → ¬ dropped p →
  is_Some ((getConfigContainerPorts_loop table ports).1 !! truncName_of p).
Proof.
  revert ports. induction table as [|q table IH]; intros ports Hin Hvalid.
  { by apply elem_of_nil in Hin. }
  rewrite getConfigContainerPorts_loop_cons.
  apply elem_of_cons in Hin as [<-|Hin]; [|by apply IH].
  apply getConfigContainerPorts_loop_keeps.
  rewrite decide_False by done. rewrite lookup_insert_eq. eauto.
Qed.

Lemma getConfigContainerPorts_loop_notes table ports p :
  p ∈ table → dropped p →
  dropping_note p ∈ (getConfigContainerPorts_loop table ports).2.
Proof.
  revert ports. induction table as [|q table IH]; intros ports Hin Hdrop.
  { by apply elem_of_nil in Hin. }
  rewrite getConfigContainerPorts_loop_log_cons.
  apply elem_of_cons in Hin as [<-|Hin].
  - rewrite (decide_True (P := dropped p)) by done.
    apply elem_of_app. right. apply elem_of_app. left. by left.
  - apply elem_of_app. right. apply elem_of_app. right. by apply IH.
Qed.

(** C9. [getConfigContainerPorts] never returns an error.  Each default port
    is handled under its name cut to at most 15 bytes, and it is this name
    and the port's number that are validated: a port for which either
    validation reports something is noted in the log as dropped and makes no
    entry, a port that passes has an entry under its truncated name, and
    every entry of the result is made of a default port that passed, under
    its truncated name. *)
Theorem getConfigContainerPorts_never_fatal cfg' :
  (getConfigContainerPorts cfg').1.2 = None ∧
  (∀ p, p ∈ constants.CloudwatchAgentPorts →
     GoString.len (truncName_of p) ≤ 15 ∧
     String.prefix (truncName_of p) (corev1.ServicePort.Name p) = true ∧
     (validation.IsValidPortName (truncName_of p) ≠ [] ∨
      validation.IsValidPortNum (corev1.ServicePort.Port p) ≠ [] →
      dropping_note p ∈ (getConfigContainerPorts cfg').2) ∧
     (validation.IsValidPortName (truncName_of p) = [] →
      validation.IsValidPortNum (corev1.ServicePort.Port p) = [] →
      is_Some ((getConfigContainerPorts cfg').1.1 !! truncName_of p))) ∧
  (∀ k cp, (getConfigContainerPorts cfg').1.1 !! k = Some cp →
     ∃ p, p ∈ constants.CloudwatchAgentPorts ∧
          k = truncName_of p ∧
          validation.IsValidPortName k = [] ∧
          validation.IsValidPortNum (corev1.ServicePort.Port p) = [] ∧
          cp = corev1.ContainerPort.mk k (corev1.ServicePort.Port p)
                 (corev1.ServicePort.Protocol p)).
Proof.
  assert (∀ p, dropped p ↔
            validation.IsValidPortName (truncName_of p) ≠ [] ∨
            validation.IsValidPortNum (corev1.ServicePort.Port p) ≠ [])
    as Hdropped.
  { intros p. unfold dropped.
    destruct (validation.IsValidPortName _), (validation.IsValidPortNum _);
      simpl; split; intros [?|?]; try done; try lia; auto with lia. }
  unfold getConfigContainerPorts, mbind, Logged_bind, mret, Logged_ret. simpl.
  rewrite app_nil_r.
  split; [done|]. split.
  - intros p Hp. split; [apply Truncate_len|].
    split; [apply Truncate_prefix|]. split.
    + intros Hbad%Hdropped. by apply getConfigContainerPorts_loop_notes.
    + intros Hname Hnum. apply getConfigContainerPorts_loop_includes; [done|].
      rewrite Hdropped, Hname, Hnum. by intros [?|?].
  - intros k cp [Hl|(p & Hp & Hvalid & -> & ->)]%getConfigContainerPorts_loop_lookup.
    { by rewrite lookup_empty in Hl. }
    exists p. split; [done|]. split; [done|].
    rewrite Hdropped in Hvalid.
    destruct (validation.IsValidPortName (truncName_of p)) eqn:Hname;
      [|destruct Hvalid; by left].
    destruct (validation.IsValidPortNum (corev1.ServicePort.Port p)) eqn:Hnum;
      [done|destruct Hvalid; by right].
Qed.

(** A second call on the custom resource as the first call left it (its flag
    map without the reserved key) returns the same container. *)
Lemma Container_again rt1 rt2 environ cfg otelcol addConfig :
  container
    (Container rt2 environ cfg
       (v1alpha1.with_Args otelcol
          (Spec_Args (Container rt1 environ cfg otelcol addConfig).1))
       addConfig).1
    = container (Container rt1 environ cfg otelcol addConfig).1.
Proof.
  rewrite (Container_range rt2 rt1), Container_Spec_Args.
  unfold Container, getConfigContainerPorts, mbind, Logged_bind, mret, Logged_ret.
  simpl. destruct addConfig; simpl; [|done].
  destruct (decide (is_Some (delete "config" _ !! "config"))) as [Hs|_].
  { rewrite lookup_delete_eq in Hs. by destruct Hs. }
  simpl. destruct (decide (is_Some (_ !! "config"))); simpl; [done|].
  rewrite delete_id; [done|]. by apply eq_None_not_Some.
Qed.

End CollectorProps.

(** ** The properties at work on the example implementation *)

Section Runs.
Import Example controllers collector.

(** The two runtimes do range over a map in different orders. *)
Example ranges_differ :
  range range_forward (<["a" := 1]> (<["b" := 2]> ∅) : gmap string nat)
    ≠ range range_backward (<["a" := 1]> (<["b" := 2]> ∅)).
Proof. vm_compute. discriminate. Qed.

(** C2 on three tasks of which the second fails and bails. *)
Lemma RunTasks_bail_on_error_witness :
  let r := reconciler [writes "config maps" true;
                       fails "service accounts" (Other "quota exceeded") true;
                       writes "services" true] in
  returned (RunTasks r () params empty_world) = Some (Other "quota exceeded") ∧
  (executed (RunTasks r () params empty_world)).*1 = take 2 (tasks r).
Proof.
  intros r.
  apply (RunTasks_bail_on_error r () params empty_world 1
           (fails "service accounts" (Other "quota exceeded") true)
           (Other "quota exceeded")); reflexivity.
Defined.

(** C3 on three tasks of which the second meets a terminating namespace. *)
Lemma RunTasks_namespace_terminating_witness :
  let e := Forbidden ["NamespaceTerminating"] in
  let r := reconciler [writes "config maps" true;
                       fails "service accounts" e true;
                       writes "services" true] in
  returned (RunTasks r () params empty_world) = None ∧
  (executed (RunTasks r () params empty_world)).*1 = take 2 (tasks r).
Proof.
  intros e r.
  apply (RunTasks_namespace_terminating r () params empty_world 1
           (fails "service accounts" e true) e); reflexivity.
Defined.

(** C4 on two tasks of which the first fails and does not bail. *)
Lemma RunTasks_continue_on_error_witness :
  let r := reconciler [fails "config maps" (Other "conflict") false;
                       writes "service accounts" true] in
  (∃ outcome,
     executed (RunTasks r () params empty_world) !! 1
       = Some (writes "service accounts" true, outcome)) ∧
  returned (RunTasks r () params empty_world) = None.
Proof.
  intros r.
  destruct (RunTasks_continue_on_error r () params empty_world) as [Hnext Hnil].
  split.
  - apply (Hnext 0 (fails "config maps" (Other "conflict") false)
             (Other "conflict")); reflexivity.
  - apply Hnil. intros k task e Hk.
    destruct k as [|[|k]]; vm_compute in Hk; [|discriminate..].
    injection Hk as <- _. reflexivity.
Defined.

(** C5 on a cluster without the resource, on one that cannot be reached, and
    on one that holds the resource. *)
Lemma Reconcile_fetch_witness :
  let r := reconciler [writes "config maps" true] in
  let req := mkNamespacedName "amazon-cloudwatch" "cloudwatch-agent" in
  let down := mkWorld [] [] true in
  let up := mkWorld [] [(req, agent ∅ [])] false in
  ((returned (Reconcile r () req empty_world)).2 = None ∧
   executed (Reconcile r () req empty_world) = []) ∧
  ((returned (Reconcile r () req down)).2 = Some (Other "connection refused") ∧
   executed (Reconcile r () req down) = []) ∧
  ((returned (Reconcile r () req up)).2 = None ∧
   (executed (Reconcile r () req up)).*1 = [writes "config maps" true]).
Proof.
  intros r req down up. split; [|split].
  - destruct (Reconcile_fetch r () req empty_world empty_world) as [Herr _].
    destruct (Herr NotFound eq_refl) as (Hret & Hran & _). by split.
  - destruct (Reconcile_fetch r () req down down) as [Herr _].
    destruct (Herr (Other "connection refused") eq_refl) as (Hret & Hran & _).
    by split.
  - destruct (Reconcile_fetch r () req up up) as [_ Hok].
    destruct (Hok (agent ∅ []) eq_refl) as (Hret & Hran & _).
    rewrite Hret, Hran. by split.
Defined.

Example Container_Args_flags_a :
  corev1.Container.Args
    (container (Container range_backward ∅ cfg (agent flags_a []) true).1)
    = ["--config=/conf/cwagentconfig.json"; "--a-b=3"; "--a=1"; "--b=2"].
Proof. vm_compute. reflexivity. Qed.

(** C1 as stated fails: the same [(cfg, otelcol, addConfig)] in a process
    with a proxy variable and in one without give different containers. *)
Lemma Container_depends_on_environ :
  container (Container range_forward ∅ cfg (agent ∅ []) true).1
    ≠ container (Container range_forward environ_proxy cfg (agent ∅ []) true).1.
Proof.
  intros Heq. apply (f_equal corev1.Container.Env) in Heq.
  vm_compute in Heq. discriminate.
Qed.

(** C6 as stated fails: ["a"] is below ["a-b"], and ["--a-b=3"] comes before
    ["--a=1"]. *)
Lemma Container_flags_not_in_key_order :
  ¬ flags_in_key_order flags_a
      (corev1.Container.Args
         (container (Container range_forward ∅ cfg (agent flags_a []) false).1)).
Proof.
  intros Horder.
  destruct (Horder "a" "1" "a-b" "3") as (i & j & Hij & Hi & Hj);
    [reflexivity..|].
  vm_compute in Hi, Hj.
  destruct i as [|[|[|i]]]; try discriminate.
  destruct j as [|[|[|j]]]; try discriminate. lia.
Qed.

(** C6 as amended, on [flags_a]. *)
Lemma Container_user_flags_sorted_witness :
  ∃ flags,
    corev1.Container.Args
      (container (Container range_backward ∅ cfg (agent flags_a []) false).1)
      = flags ∧
    Sprintf_flag "a-b" "3" ∈ flags ∧
    before_in flags (Sprintf_flag "a" "1") (Sprintf_flag "b" "2").
Proof.
  destruct (Container_user_flags_sorted range_backward ∅ cfg (agent flags_a [])
              false) as (flags & Hargs & _ & _ & Hin & Horder).
  exists flags. split; [exact Hargs|]. split.
  - apply Hin. reflexivity.
  - apply Horder; reflexivity.
Defined.


(** C10 on [flags_config]. *)
Lemma Container_config_flag_kept_witness :
  "--config=/tmp/mine.json"
    ∈ corev1.Container.Args
        (container (Container range_forward ∅ cfg (agent flags_config []) false).1) ∧
  length
    (corev1.Container.Args
       (container (Container range_forward ∅ cfg (agent flags_config []) false).1))
    = 4.
Proof.
  destruct (Container_config_flag_kept range_forward ∅ cfg
              (agent flags_config []) "/tmp/mine.json" eq_refl)
    as (_ & Hlen & Hin & _).
  split; [exact Hin|exact Hlen].
Defined.

(** C8 on a user-declared port of the name of the default ["emf-tcp"]. *)
Lemma Container_port_override_witness :
  let mine := corev1.ServicePort.mk "emf-tcp" "UDP" 1234 in
  ∃ u,
    filter (λ q, corev1.ContainerPort.Name q = "emf-tcp")
      (corev1.Container.Ports
         (container (Container range_backward ∅ cfg (agent ∅ [mine]) true).1))
      = [corev1.ContainerPort.mk "emf-tcp" (corev1.ServicePort.Port u)
           (corev1.ServicePort.Protocol u)] ∧
    u = mine.
Proof.
  intros mine.
  destruct (Container_port_override range_backward ∅ cfg (agent ∅ [mine]) true
              "emf-tcp") as (u & Hlast & Hone & _).
  { apply list_elem_of_fmap. exists mine. split; [reflexivity|left]. }
  exists u. split; [exact Hone|].
  vm_compute in Hlast. by injection Hlast as <-.
Defined.

(** C9 on the example table: one default is cut to 15 bytes and kept, one is
    dropped for its number. *)
Lemma getConfigContainerPorts_never_fatal_witness :
  (getConfigContainerPorts "{}").1.2 = None ∧
  is_Some ((getConfigContainerPorts "{}").1.1 !! "application-sig") ∧
  dropping_note (corev1.ServicePort.mk "unset" "UDP" 0)
    ∈ (getConfigContainerPorts "{}").2.
Proof.
  destruct (getConfigContainerPorts_never_fatal "{}") as (Herr & Hports & _).
  split; [exact Herr|]. split.
  - destruct (Hports (corev1.ServicePort.mk "application-signals-http" "TCP" 4316))
      as (_ & _ & _ & Hkept).
    { right. left. }
    apply Hkept; reflexivity.
  - destruct (Hports (corev1.ServicePort.mk "unset" "UDP" 0))
      as (_ & _ & Hnote & _).
    { right. right. left. }
    apply Hnote. right. discriminate.
Defined.

End Runs.

(** ** More of the task pipeline *)

Section ControllerMore.
Context `{GoError} `{!corev1.Opaque} `{!ctrl.Pkg} `{!apierrors.Pkg}.
Import controllers.

(** One turn of the loop, for the cluster and the logger. *)
Lemma RunTasks_loop_cons_effects r task rest ctx params w :
  let w' := (Do task ctx params w).1 in
  let err := (Do task ctx params w).2 in
  world_after (RunTasks_loop r (task :: rest) ctx params w)
    = (if goes_on task err
       then world_after (RunTasks_loop r rest ctx params w') else w') ∧
  logged (RunTasks_loop r (task :: rest) ctx params w)
    = note_of r params (task, err) ++
      (if goes_on task err
       then logged (RunTasks_loop r rest ctx params w') else []).
Proof.
  unfold logged, world_after, events, goes_on, note_of.
  simpl. unfold mbind, M_bind, do, Info, Error.
  destruct (Do task ctx params w) as [w' [e|]]; simpl.
  - destruct (namespaceTerminating e); simpl; [done|].
    destruct (BailOnError task); simpl; [done|].
    by destruct (RunTasks_loop r rest ctx params w') as [[ret w''] evs].
  - by destruct (RunTasks_loop r rest ctx params w') as [[ret w''] evs].
Qed.

Lemma RunTasks_loop_all_succeed r tasks ctx params w :
  (∀ task, task ∈ tasks → ∀ w', (Do task ctx params w').2 = None) →
  returned (RunTasks_loop r tasks ctx params w) = None ∧
  executed (RunTasks_loop r tasks ctx params w) = (λ t, (t, None)) <$> tasks ∧
  logged (RunTasks_loop r tasks ctx params w) = [].
Proof.
  revert w. induction tasks as [|t rest IH]; intros w Hok; [done|].
  destruct (RunTasks_loop_cons r t rest ctx params w) as [-> ->].
  destruct (RunTasks_loop_cons_effects r t rest ctx params w) as [_ ->].
  rewrite (Hok t) by left. simpl.
  destruct (IH (Do t ctx params w).1) as (-> & -> & ->); [|done].
  intros task Hin. apply Hok. by right.
Qed.

(** X1. When the action of every task of the list succeeds in whatever state
    of the cluster it is called, [RunTasks] executes all the tasks, in the
    order of the list, logs nothing and returns nil. *)
Theorem RunTasks_all_succeed r ctx params w :
  (∀ task, task ∈ tasks r → ∀ w', (Do task ctx params w').2 = None) →
  returned (RunTasks r ctx params w) = None ∧
  executed (RunTasks r ctx params w) = (λ t, (t, None)) <$> tasks r ∧
  logged (RunTasks r ctx params w) = [].
Proof. apply RunTasks_loop_all_succeed. Qed.

(** X2. An error that [RunTasks] returns is the error the last task it
    executed returned; that task has [BailOnError = true] and the error is not
    the namespace-terminating condition.  [RunTasks] makes up no error of its
    own. *)
Theorem RunTasks_error_origin r ctx params w e :
  returned (RunTasks r ctx params w) = Some e →
  ∃ task,
    last (executed (RunTasks r ctx params w)) = Some (task, Some e) ∧
    BailOnError task = true ∧ namespaceTerminating e = false.
Proof.
  unfold RunTasks.
  intros (k & task & Hk & Hbail & Hns)%RunTasks_loop_returns_error.
  exists task. split; [|done].
  destruct (RunTasks_loop_stops r (tasks r) ctx params w k task e Hk) as [_ Hlen].
  { unfold goes_on. by rewrite Hns, Hbail. }
  by rewrite last_lookup, Hlen.
Qed.

Lemma RunTasks_loop_sequential r tasks ctx params w :
  world_after (RunTasks_loop r tasks ctx params w)
    = worlds ctx params w (executed (RunTasks_loop r tasks ctx params w)).*1 ∧
  ∀ k task outcome,
    executed (RunTasks_loop r tasks ctx params w) !! k = Some (task, outcome) →
    outcome = (Do task ctx params (worlds ctx params w (take k tasks))).2.
Proof.
  revert w. induction tasks as [|t rest IH]; intros w; [done|].
  destruct (RunTasks_loop_cons r t rest ctx params w) as [-> _].
  destruct (RunTasks_loop_cons_effects r t rest ctx params w) as [-> _].
  destruct (IH (Do t ctx params w).1) as [IHw IHk].
  split.
  - destruct (goes_on t _); simpl; [|done]. by rewrite IHw.
  - intros [|k] task outcome Hk; simpl in Hk.
    + by injection Hk as <- <-.
    + destruct (goes_on t _); [|done]. simpl. by apply IHk.
Qed.

(** X3. The tasks run strictly one after the other on the same cluster: the
    action of the [k]-th task is called in the state the actions of the tasks
    before it left, what is recorded as its outcome is what it returned there,
    and the cluster [RunTasks] leaves is the one its last executed task
    left. *)
Theorem RunTasks_sequential r ctx params w :
  world_after (RunTasks r ctx params w)
    = worlds ctx params w (executed (RunTasks r ctx params w)).*1 ∧
  ∀ k task outcome,
    executed (RunTasks r ctx params w) !! k = Some (task, outcome) →
    outcome = (Do task ctx params (worlds ctx params w (take k (tasks r)))).2.
Proof. apply RunTasks_loop_sequential. Qed.

Lemma RunTasks_loop_logged r tasks ctx params w :
  logged (RunTasks_loop r tasks ctx params w)
    = executed (RunTasks_loop r tasks ctx params w) ≫= note_of r params.
Proof.
  revert w. induction tasks as [|t rest IH]; intros w; [done|].
  destruct (RunTasks_loop_cons r t rest ctx params w) as [-> _].
  destruct (RunTasks_loop_cons_effects r t rest ctx params w) as [_ ->].
  rewrite bind_cons. f_equal.
  destruct (goes_on t _); [apply IH|done].
Qed.

(** X4. [RunTasks] logs once for each task that failed and for no other
    reason: an error entry with the message ["failed to reconcile <name>"] for
    a failure that is not the namespace-terminating condition, whether or not
    the task bails, an info entry at verbosity 2 that names the namespace for
    the namespace-terminating one.  Tasks that succeed are not logged. *)
Theorem RunTasks_logged r ctx params w :
  logged (RunTasks r ctx params w)
    = executed (RunTasks r ctx params w) ≫= note_of r params ∧
  ∀ k task e,
    executed (RunTasks r ctx params w) !! k = Some (task, Some e) →
    namespaceTerminating e = false →
    LogError e ("failed to reconcile " +:+ Name task) (log r)
      ∈ logged (RunTasks r ctx params w).
Proof.
  unfold RunTasks. rewrite RunTasks_loop_logged. split; [done|].
  intros k task e Hk Hns. apply list_elem_of_bind.
  exists (task, Some e). split; [|by apply list_elem_of_lookup_2 in Hk].
  unfold note_of. simpl. rewrite Hns. by left.
Qed.

(** X5. [Reconcile] never asks for a requeue itself: whatever the fetch and
    the tasks do, the result it returns is the zero [ctrl.Result]. *)
Theorem Reconcile_never_requeues r ctx req w :
  (returned (Reconcile r ctx req w)).1 = ctrl.mkResult false 0.
Proof.
  unfold Reconcile, returned. unfold mbind, M_bind, get.
  destruct (ctrl.Get ctx req w) as [w' [err|instance]]; simpl.
  - by destruct (apierrors.IsNotFound err).
  - by destruct (RunTasks r ctx _ w') as [[[e|] w''] evs].
Qed.

(** X6. A fetch that fails with a not-found error is silent; a fetch that
    fails with any other error is logged once, as an error entry
    ["unable to fetch AmazonCloudWatchAgent"] of the logger that carries the
    identity of the request. *)
Theorem Reconcile_fetch_error_logged r ctx req w w' err :
  ctrl.Get ctx req w = (w', inl err) →
  logged (Reconcile r ctx req w)
    = if apierrors.IsNotFound err then []
      else [LogError err "unable to fetch AmazonCloudWatchAgent"
              (log r ++ [("amazoncloudwatchagent",
                          VString (req_Namespace req +:+ "/" +:+ req_Name req))])].
Proof.
  intros Hget. unfold Reconcile, logged, events.
  unfold mbind, M_bind, get. rewrite Hget. simpl.
  by destruct (apierrors.IsNotFound err).
Qed.

(** X7. When the resource is found and the action of every task succeeds
    wherever it is called, [Reconcile] runs all the tasks of the reconciler in
    their order and returns no error. *)
Theorem Reconcile_success r ctx req w w' instance :
  ctrl.Get ctx req w = (w', inr instance) →
  (∀ task, task ∈ tasks r → ∀ params w'', (Do task ctx params w'').2 = None) →
  returned (Reconcile r ctx req w) = (ctrl.mkResult false 0, None) ∧
  (executed (Reconcile r ctx req w)).*1 = tasks r.
Proof.
  intros Hget Hok. unfold Reconcile, returned, executed, events.
  unfold mbind, M_bind, get. rewrite Hget. simpl.
  match goal with |- context [RunTasks r ctx ?p w'] => set (params := p) end.
  destruct (RunTasks_all_succeed r ctx params w') as (Hret & Hran & _).
  { intros task Hin w''. by apply Hok. }
  unfold returned, executed, events in Hret, Hran.
  destruct (RunTasks r ctx params w') as [[ret w''] evs]. simpl in *.
  subst ret. simpl. rewrite app_nil_r, Hran. split; [done|].
  rewrite <-list_fmap_compose. apply list_fmap_id.
Qed.

End ControllerMore.

(** ** The constructor *)

Section ConstructorProps.
Context `{GoError} `{!corev1.Opaque} `{!ctrl.Pkg} `{!apierrors.Pkg}
  `{!reconcile.Pkg}.
Import controllers.

Lemma RunTasks_loop_executed_elem_of r tasks ctx params w k task outcome :
  executed (RunTasks_loop r tasks ctx params w) !! k = Some (task, outcome) →
  task ∈ tasks.
Proof.
  intros Hk.
  assert ((executed (RunTasks_loop r tasks ctx params w)).*1 !! k = Some task)
    as Hfst by by rewrite list_lookup_fmap, Hk.
  rewrite RunTasks_loop_executed_prefix in Hfst.
  apply lookup_take_Some in Hfst as [Hfst _].
  by apply list_elem_of_lookup_2 in Hfst.
Qed.

(** Where every task is to bail, the first failure of any kind ends the
    run. *)
Lemma RunTasks_loop_all_bail r tasks ctx params w k task e :
  Forall (λ t, BailOnError t = true) tasks →
  executed (RunTasks_loop r tasks ctx params w) !! k = Some (task, Some e) →
  length (executed (RunTasks_loop r tasks ctx params w)) = S k ∧
  returned (RunTasks_loop r tasks ctx params w)
    = if namespaceTerminating e then None else Some e.
Proof.
  intros Hall Hk.
  assert (BailOnError task = true) as Hbail.
  { rewrite Forall_forall in Hall. apply Hall.
    by apply RunTasks_loop_executed_elem_of in Hk. }
  destruct (RunTasks_loop_stops r tasks ctx params w k task e Hk) as [-> ->];
    [|done].
  unfold goes_on. rewrite Hbail. by destruct (namespaceTerminating e).
Qed.

(** X8. A reconciler built without tasks gets the six default tasks, in the
    order config maps, service accounts, services, deployments, daemon sets,
    amazon-cloudwatch-agent.  Each of them bails: in a run of this
    reconciler a task that fails, for whatever reason, is the last one
    executed, so every task before it succeeded; the run returns its error,
    or nil when the error is the namespace-terminating condition. *)
Theorem NewReconciler_default_halts p ctx params w :
  Tasks p = [] →
  Name <$> tasks (NewReconciler p)
    = ["config maps"; "service accounts"; "services"; "deployments";
       "daemon sets"; "amazon-cloudwatch-agent"] ∧
  Do <$> tasks (NewReconciler p)
    = [reconcile.ConfigMaps; reconcile.ServiceAccounts; reconcile.Services;
       reconcile.Deployments; reconcile.DaemonSets; reconcile.Self] ∧
  ∀ k task e,
    executed (RunTasks (NewReconciler p) ctx params w) !! k
      = Some (task, Some e) →
    length (executed (RunTasks (NewReconciler p) ctx params w)) = S k ∧
    returned (RunTasks (NewReconciler p) ctx params w)
      = if namespaceTerminating e then None else Some e.
Proof.
  intros Hnone.
  assert (Forall (λ t, BailOnError t = true) (tasks (NewReconciler p))) as Hall.
  { unfold NewReconciler. simpl. rewrite Hnone. simpl. repeat constructor. }
  split; [|split].
  - unfold NewReconciler. simpl. by rewrite Hnone.
  - unfold NewReconciler. simpl. by rewrite Hnone.
  - intros k task e. by apply RunTasks_loop_all_bail.
Qed.

(** X9. A reconciler built with tasks keeps them as they are given, and a
    reconciler built by [NewReconciler] never has an empty task list: every
    run of it calls the action of its first task. *)
Theorem NewReconciler_never_empty p ctx params w :
  (Tasks p ≠ [] → tasks (NewReconciler p) = Tasks p) ∧
  ∃ first rest outcome,
    tasks (NewReconciler p) = first :: rest ∧
    executed (RunTasks (NewReconciler p) ctx params w) !! 0
      = Some (first, outcome).
Proof.
  split.
  - intros Hsome. unfold NewReconciler. simpl.
    destruct (Tasks p); [done|]. done.
  - unfold RunTasks.
    assert (∃ first rest, tasks (NewReconciler p) = first :: rest)
      as (first & rest & Htasks).
    { unfold NewReconciler. simpl. destruct (Tasks p); simpl; eauto. }
    exists first, rest. rewrite Htasks.
    destruct (RunTasks_loop_cons (NewReconciler p) first rest ctx params w)
      as [-> _].
    eauto.
Qed.

End ConstructorProps.

(** ** More of the container builder *)

Section CollectorMore.
Context `{GoError} `{!corev1.Opaque} `{!validation.Pkg} `{!constants.Pkg}
  `{!path.Pkg} `{!proxy.Pkg} `{!naming.Pkg}.
Import collector.

Lemma getConfigContainerPorts_loop_lookup_last table ports k :
  (getConfigContainerPorts_loop table ports).1 !! k
    = match port_of_last (kept_as k) k table with
      | Some c => Some c
      | None => ports !! k
      end.
Proof.
  unfold port_of_last.
  revert ports. induction table as [|p table IH]; intros ports; [done|].
  rewrite getConfigContainerPorts_loop_cons, IH, filter_cons.
  destruct (decide (kept_as k p)) as [[Hvalid <-]|Hnot].
  - rewrite last_cons, decide_False by done.
    destruct (last (filter _ table)); simpl; [done|].
    by rewrite lookup_insert_eq.
  - destruct (last (filter _ table)); simpl; [done|].
    destruct (decide (dropped p)) as [|Hvalid]; [done|].
    rewrite lookup_insert_ne; [done|].
    intros Heq. apply Hnot. by split.
Qed.

(** X10. Of the default ports that pass validation and come under the same
    name once truncated, the one that stands last in the table is the one
    [getConfigContainerPorts] returns under that name; a name under which no
    default port passes has no entry. *)
Theorem getConfigContainerPorts_last_default_wins cfg' k :
  (getConfigContainerPorts cfg').1.1 !! k = default_port k.
Proof.
  unfold getConfigContainerPorts, mbind, Logged_bind, mret, Logged_ret. simpl.
  rewrite getConfigContainerPorts_loop_lookup_last, lookup_empty.
  unfold default_port. by destruct (port_of_last _ _ _).
Qed.

Lemma portMapToList_in_map rt ports q :
  keyed_by_name ports → q ∈ portMapToList rt ports →
  ports !! corev1.ContainerPort.Name q = Some q.
Proof.
  intros Hk. rewrite portMapToList_Permutation.
  intros ([k q'] & -> & Hin%elem_of_map_to_list)%list_elem_of_fmap. simpl.
  by rewrite (Hk k q' Hin).
Qed.

Lemma portMapToList_filter_None rt ports X :
  keyed_by_name ports → ports !! X = None →
  filter (λ q, corev1.ContainerPort.Name q = X) (portMapToList rt ports) = [].
Proof.
  intros Hk Hnone. apply filter_none. intros q Hq Hname.
  apply (portMapToList_in_map rt ports q Hk) in Hq. congruence.
Qed.

(** X11. The port list of the container, name by name: under the name [X] it
    has the last explicit port of the spec named [X]; failing that, the last
    default port that passes validation and is named [X] once truncated;
    failing that, nothing.  It never has two ports of one name, and no port
    that is neither declared nor a valid default. *)
Theorem Container_ports_resolved rt environ cfg otelcol addConfig X :
  filter (λ q, corev1.ContainerPort.Name q = X)
    (corev1.Container.Ports
       (container (Container rt environ cfg otelcol addConfig).1))
    = match explicit_port (v1alpha1.Ports (v1alpha1.Spec otelcol)) X with
      | Some c => [c]
      | None => match default_port X with
                | Some c => [c]
                | None => []
                end
      end.
Proof.
  rewrite Container_Ports.
  set (explicit := v1alpha1.Ports (v1alpha1.Spec otelcol)).
  pose proof (Container_ports_keyed explicit) as Hk.
  pose proof (overlay_ports_lookup
                (getConfigContainerPorts_loop constants.CloudwatchAgentPorts ∅).1
                explicit X) as Hlookup.
  rewrite getConfigContainerPorts_loop_lookup_last, lookup_empty in Hlookup.
  unfold explicit_port, default_port, port_of_last at 1.
  destruct (last (filter _ explicit)) as [u|]; simpl.
  - by apply portMapToList_filter.
  - destruct (port_of_last (kept_as X) X _) as [c|].
    + by apply portMapToList_filter.
    + by apply portMapToList_filter_None.
Qed.

(** X12. [portMapToList] returns the ports of the map and nothing else, one
    for each entry, with no port before one of a smaller name; and for a map
    that holds each port under the port's own name the list is the same
    whatever the order in which the map is ranged over and whatever
    rearrangement a sort may pick among those that are sorted. *)
Theorem portMapToList_sorted_values rt ports :
  portMapToList rt ports ≡ₚ (map_to_list ports).*2 ∧
  length (portMapToList rt ports) = size ports ∧
  Sorted name_le (portMapToList rt ports) ∧
  (keyed_by_name ports →
   ∀ l', l' ≡ₚ (map_to_list ports).*2 → Sorted name_le l' →
         l' = portMapToList rt ports).
Proof.
  split; [apply portMapToList_Permutation|]. split; [|split].
  - rewrite portMapToList_Permutation, length_fmap. apply length_map_to_list.
  - apply sort_Slice_Name_Sorted.
  - intros Hk l'. by apply portMapToList_unique.
Qed.

Lemma getConfigContainerPorts_loop_log_info table ports entry :
  entry ∈ (getConfigContainerPorts_loop table ports).2 →
  ∃ level msg keysAndValues, entry = LogInfo level msg keysAndValues.
Proof.
  revert ports. induction table as [|p table IH]; intros ports.
  { by intros ?%elem_of_nil. }
  rewrite getConfigContainerPorts_loop_log_cons.
  rewrite !elem_of_app. intros [Hin|[Hin|Hin]].
  - case_decide; [|by apply elem_of_nil in Hin].
    apply list_elem_of_singleton in Hin as ->. unfold truncating_note. eauto.
  - case_decide; [|by apply elem_of_nil in Hin].
    apply list_elem_of_singleton in Hin as ->. unfold dropping_note. eauto.
  - by apply IH in Hin.
Qed.

(** X13. What [Container] logs: the notes of the loop over the default ports,
    then the note that the ["config"] flag is ignored, exactly when the
    primary configuration is added and the flag map has the key.  It never
    logs an error. *)
Theorem Container_logged rt environ cfg otelcol addConfig :
  (Container rt environ cfg otelcol addConfig).2
    = (getConfigContainerPorts_loop constants.CloudwatchAgentPorts ∅).2
      ++ (if addConfig then
            if decide (is_Some (v1alpha1.Args (v1alpha1.Spec otelcol) !! "config"))
            then [config_note] else []
          else []) ∧
  ∀ e msg keysAndValues,
    LogError e msg keysAndValues ∉ (Container rt environ cfg otelcol addConfig).2.
Proof.
  assert ((Container rt environ cfg otelcol addConfig).2
    = (getConfigContainerPorts_loop constants.CloudwatchAgentPorts ∅).2
      ++ (if addConfig then
            if decide (is_Some (v1alpha1.Args (v1alpha1.Spec otelcol) !! "config"))
            then [config_note] else []
          else [])) as Hlog.
  { unfold Container, getConfigContainerPorts, mbind, Logged_bind, mret,
      Logged_ret, config_note.
    simpl. rewrite !app_nil_r. destruct addConfig; simpl.
    - destruct (decide (is_Some _)); simpl; by rewrite ?app_nil_r.
    - by rewrite ?app_nil_r. }
  split; [done|]. rewrite Hlog. intros e msg kv.
  rewrite elem_of_app. intros [Hin|Hin].
  - apply getConfigContainerPorts_loop_log_info in Hin as (? & ? & ? & ?).
    discriminate.
  - destruct addConfig; [|by apply elem_of_nil in Hin].
    case_decide; [|by apply elem_of_nil in Hin].
    by apply list_elem_of_singleton in Hin.
Qed.

(** X14. The volume mounts of the container: the mount of the primary
    configuration at ["/etc/cwagentconfig"] first, when it is added; then the
    mounts of the spec as they are declared; then one mount for each auxiliary
    configuration bundle, in the order of the bundles.  Nothing is left out
    and nothing is added. *)
Theorem Container_VolumeMounts rt environ cfg otelcol addConfig :
  corev1.Container.VolumeMounts
    (container (Container rt environ cfg otelcol addConfig).1)
    = (if addConfig then [config_mount] else [])
      ++ v1alpha1.VolumeMounts (v1alpha1.Spec otelcol)
      ++ (extra_mount <$> v1alpha1.ConfigMaps (v1alpha1.Spec otelcol)).
Proof.
  unfold Container, mbind, Logged_bind, mret, Logged_ret, config_mount.
  simpl.
  assert (∀ (A : Type) (l : list A), ¬ 0 < length l → l = []) as Hnil.
  { intros A [|a l] Hlen; [done|]. simpl in Hlen. lia. }
  destruct addConfig; simpl; repeat case_decide;
    repeat match goal with
           | Hlen : ¬ 0 < length _ |- _ => apply Hnil in Hlen; rewrite Hlen
           end;
    simpl; by rewrite ?app_nil_r.
Qed.

(** X15. The environment of the container: the variables of the spec at the
    positions they are declared at, then [POD_NAME], taken from the pod's
    [metadata.name], then the proxy variables read from the process
    environment.  [POD_NAME] is appended also when the spec declares a
    variable of that name, which stays where it is. *)
Theorem Container_Env_order rt environ cfg otelcol addConfig :
  corev1.Container.Env (container (Container rt environ cfg otelcol addConfig).1)
    = v1alpha1.Env (v1alpha1.Spec otelcol) ++ POD_NAME
        :: proxy.ReadProxyVarsFromEnv environ ∧
  (∀ i var, v1alpha1.Env (v1alpha1.Spec otelcol) !! i = Some var →
     corev1.Container.Env
       (container (Container rt environ cfg otelcol addConfig).1) !! i
       = Some var) ∧
  corev1.Container.Env (container (Container rt environ cfg otelcol addConfig).1)
    !! length (v1alpha1.Env (v1alpha1.Spec otelcol)) = Some POD_NAME.
Proof.
  rewrite Container_Env, <-app_assoc. simpl. split; [done|]. split.
  - intros i var Hi. by apply lookup_app_l_Some.
  - by rewrite list_lookup_middle.
Qed.

(** X16. What a call does to the flag map it shares with its caller: nothing
    when the primary configuration is not added; otherwise it removes the key
    ["config"] and no other key.  A key other than ["config"] keeps its
    value in either case. *)
Theorem Container_flag_map_after rt environ cfg otelcol addConfig :
  (addConfig = false →
   Spec_Args (Container rt environ cfg otelcol addConfig).1
     = v1alpha1.Args (v1alpha1.Spec otelcol)) ∧
  (addConfig = true →
   Spec_Args (Container rt environ cfg otelcol addConfig).1 !! "config" = None) ∧
  (∀ k, k ≠ "config" →
     Spec_Args (Container rt environ cfg otelcol addConfig).1 !! k
       = v1alpha1.Args (v1alpha1.Spec otelcol) !! k).
Proof.
  rewrite Container_Spec_Args. split; [by intros ->|]. split.
  - intros ->. apply lookup_delete_eq.
  - intros k Hne. destruct addConfig; [|done]. by rewrite lookup_delete_ne.
Qed.

(** X17. Building the container a second time from the custom resource as the
    first call left it, its flag map without the key the first call removed,
    gives the same container: the deletion in the shared map does not make
    the next reconciliation see a change. *)
Theorem Container_second_call rt1 rt2 environ cfg otelcol addConfig :
  container
    (Container rt2 environ cfg
       (v1alpha1.with_Args otelcol
          (Spec_Args (Container rt1 environ cfg otelcol addConfig).1))
       addConfig).1
    = container (Container rt1 environ cfg otelcol addConfig).1.
Proof. apply Container_again. Qed.

(** X18. Whether the primary configuration is added bears on the arguments
    and the volume mounts only: the name, the image, the pull policy, the
    ports and the environment of the container are the same with and without
    it.  The image is the one of the spec, or the configured default when the
    spec names none. *)
Theorem Container_addConfig_scope rt environ cfg otelcol :
  let with_config := container (Container rt environ cfg otelcol true).1 in
  let without := container (Container rt environ cfg otelcol false).1 in
  corev1.Container.Name with_config = corev1.Container.Name without ∧
  corev1.Container.Image with_config = corev1.Container.Image without ∧
  corev1.Container.ImagePullPolicy with_config
    = corev1.Container.ImagePullPolicy without ∧
  corev1.Container.Ports with_config = corev1.Container.Ports without ∧
  corev1.Container.Env with_config = corev1.Container.Env without ∧
  corev1.Container.Image without
    = (if decide (v1alpha1.Image (v1alpha1.Spec otelcol) = "")
       then config.CollectorImage cfg
       else v1alpha1.Image (v1alpha1.Spec otelcol)).
Proof.
  intros with_config without. subst with_config without.
  rewrite !Container_Ports, !Container_Env.
  unfold Container, mbind, Logged_bind, mret, Logged_ret. simpl.
  repeat split.
  destruct (v1alpha1.Image (v1alpha1.Spec otelcol)); by repeat case_decide.
Qed.

End CollectorMore.

(** ** These properties at work on the example implementation *)

Section MoreRuns.
Import Example controllers collector.

(** X1 on two tasks that write. *)
Lemma RunTasks_all_succeed_witness :
  let r := reconciler [writes "config maps" true; writes "services" false] in
  returned (RunTasks r () params empty_world) = None ∧
  executed (RunTasks r () params empty_world) = (λ t, (t, None)) <$> tasks r ∧
  logged (RunTasks r () params empty_world) = [].
Proof.
  intros r. apply (RunTasks_all_succeed r () params empty_world).
  intros task Hin w'.
  apply elem_of_cons in Hin as [->|Hin]; [reflexivity|].
  apply elem_of_cons in Hin as [->|Hin]; [reflexivity|].
  by apply elem_of_nil in Hin.
Defined.

(** X2 on a second task that fails and bails. *)
Lemma RunTasks_error_origin_witness :
  let r := reconciler [writes "config maps" true;
                       fails "services" (Other "timeout") true] in
  ∃ task,
    last (executed (RunTasks r () params empty_world))
      = Some (task, Some (Other "timeout")) ∧
    BailOnError task = true ∧ namespaceTerminating (Other "timeout") = false.
Proof.
  intros r.
  apply (RunTasks_error_origin r () params empty_world (Other "timeout")).
  reflexivity.
Defined.

(** X3 on two tasks that write: the second finds what the first wrote. *)
Lemma RunTasks_sequential_witness :
  let r := reconciler [writes "config maps" true; writes "services" true] in
  written (world_after (RunTasks r () params empty_world))
    = ["config maps"; "services"].
Proof.
  intros r.
  destruct (RunTasks_sequential r () params empty_world) as [Hworld _].
  rewrite Hworld. reflexivity.
Defined.

(** X4 on a task that fails without bailing. *)
Lemma RunTasks_logged_witness :
  let r := reconciler [fails "config maps" (Other "conflict") false;
                       writes "services" true] in
  LogError (Other "conflict") "failed to reconcile config maps" []
    ∈ logged (RunTasks r () params empty_world).
Proof.
  intros r.
  destruct (RunTasks_logged r () params empty_world) as [_ Hnote].
  apply (Hnote 0 (fails "config maps" (Other "conflict") false)
           (Other "conflict")); reflexivity.
Defined.

(** X6 on a cluster that cannot be reached. *)
Lemma Reconcile_fetch_error_logged_witness :
  logged (Reconcile (reconciler []) () request down_world)
    = [LogError (Other "connection refused")
         "unable to fetch AmazonCloudWatchAgent"
         [("amazoncloudwatchagent",
           VString "amazon-cloudwatch/cloudwatch-agent")]].
Proof.
  exact (Reconcile_fetch_error_logged (reconciler []) () request down_world
           down_world (Other "connection refused") eq_refl).
Defined.

(** X7 on a cluster that holds the resource. *)
Lemma Reconcile_success_witness :
  let r := reconciler [writes "config maps" true; writes "services" true] in
  returned (Reconcile r () request up_world) = (ctrl.mkResult false 0, None) ∧
  (executed (Reconcile r () request up_world)).*1 = tasks r.
Proof.
  intros r.
  apply (Reconcile_success r () request up_world up_world (agent ∅ []) eq_refl).
  intros task Hin params' w'.
  apply elem_of_cons in Hin as [->|Hin]; [reflexivity|].
  apply elem_of_cons in Hin as [->|Hin]; [reflexivity|].
  by apply elem_of_nil in Hin.
Defined.

(** X8 on a cluster that cannot be reached: the first default task fails and
    no other runs. *)
Lemma NewReconciler_default_halts_witness :
  length (executed (RunTasks (NewReconciler options) () params down_world)) = 1 ∧
  returned (RunTasks (NewReconciler options) () params down_world)
    = Some (Other "connection refused").
Proof.
  destruct (NewReconciler_default_halts options () params down_world eq_refl)
    as (_ & _ & Hhalt).
  eapply (Hhalt 0 _ (Other "connection refused")).
  reflexivity.
Defined.

(** X8 on a cluster that can be reached: the six default tasks write in their
    order. *)
Example NewReconciler_default_run :
  written (world_after (RunTasks (NewReconciler options) () params empty_world))
    = ["ConfigMap"; "ServiceAccount"; "Service"; "Deployment"; "DaemonSet";
       "AmazonCloudWatchAgent"].
Proof. reflexivity. Qed.

(** X16 on a flag map with the reserved flag: another key keeps its value. *)
Lemma Container_flag_map_after_witness :
  Spec_Args (Container range_forward ∅ cfg (agent flags_config []) true).1
    !! "a-b" = Some "3".
Proof.
  destruct (Container_flag_map_after range_forward ∅ cfg (agent flags_config [])
              true) as (_ & _ & Hother).
  rewrite Hother; [reflexivity|discriminate].
Defined.

End MoreRuns.
